(** * Magnetometer bias calibration filter: [Ekf::fuseMagCal]

    A shallow embedding of [EKF/mag_calibration.cpp].  The C++ method reads
    and writes members of the [Ekf] object; here it is a function from the
    object before the call to the object after it, together with the
    diagnostics it prints.

    Single precision numbers are IEEE 754 binary32 values, computed with
    the Standard Library's executable specification of floating point
    arithmetic ([SpecFloat]) at precision 24 and maximal exponent 128.  Every
    C++ operator is one correctly rounded operation, in the order the C++
    grammar gives. *)

From Stdlib Require Import ZArith List Bool Lia.
From Stdlib Require Import Floats.SpecFloat.
Import ListNotations.

(** ** binary32 arithmetic *)

Module F32.

Definition prec : Z := 24.
Definition emax : Z := 128.

Definition float : Type := spec_float.

Definition fadd : float -> float -> float := SFadd prec emax.
Definition fsub : float -> float -> float := SFsub prec emax.
Definition fmul : float -> float -> float := SFmul prec emax.
Definition fdiv : float -> float -> float := SFdiv prec emax.
Definition fneg : float -> float := SFopp.

(** The C comparison operators; each is false when an operand is a NaN. *)
Definition flt (a b : float) : bool := SFltb a b.
Definition fgt (a b : float) : bool := SFltb b a.
Definition fle (a b : float) : bool := SFleb a b.
Definition fge (a b : float) : bool := SFleb b a.
Definition feq (a b : float) : bool := SFeqb a b.

Definition is_nan (a : float) : bool :=
  match a with S754_nan => true | _ => false end.

(** [(float)n] for an integer [n]: the nearest binary32, ties to even. *)
Definition of_Z (n : Z) : float := binary_normalize prec emax n 0 false.

(** The decimal literal [m]e-[k]f: the binary32 nearest to [m / 10^k]. *)
Definition lit (m : positive) (k : nat) : float :=
  let '(q, e, l) :=
    SFdiv_core_binary prec emax (Zpos m) 0 (Z.pow 10 (Z.of_nat k)) 0 in
  binary_round_aux prec emax false q e l.

(** [fabsf] and [fmaxf] of the C library.  [fmaxf] treats a NaN as missing
    data: when one argument is a NaN the other one is returned. *)
Definition fabsf : float -> float := SFabs.

Definition fmaxf (x y : float) : float :=
  if is_nan x then y
  else if is_nan y then x
  else if fgt x y then x else y.

End F32.

Import F32.

Definition f_0 : float := S754_zero false.
Definition f_1 : float := Eval vm_compute in of_Z 1.
Definition f_2 : float := Eval vm_compute in of_Z 2.
Definition f_4 : float := Eval vm_compute in of_Z 4.
Definition f_5 : float := Eval vm_compute in of_Z 5.
Definition f_10 : float := Eval vm_compute in of_Z 10.
Definition f_20 : float := Eval vm_compute in of_Z 20.
Definition f_45 : float := Eval vm_compute in of_Z 45.
Definition f_180 : float := Eval vm_compute in of_Z 180.
Definition f_0_5 : float := Eval vm_compute in lit 5 1.
Definition f_0_25 : float := Eval vm_compute in lit 25 2.
Definition f_0_0001 : float := Eval vm_compute in lit 1 4.
Definition f_1E_6 : float := Eval vm_compute in lit 1 6.
Definition f_1e_12 : float := Eval vm_compute in lit 1 12.

Declare Scope f32_scope.
Delimit Scope f32_scope with f32.
Infix "+" := fadd : f32_scope.
Infix "-" := fsub : f32_scope.
Infix "*" := fmul : f32_scope.
Infix "/" := fdiv : f32_scope.
Notation "- x" := (fneg x) : f32_scope.

(** ** Fixed size arrays

    [float v[3]], [float v[4]] and [float m[4][4]] are records of their
    elements, read and written by index as the loops of the source do.  The
    source never indexes out of range; here an index past the end denotes the
    last element on a read and nothing on a write. *)

Record arr3 (A : Type) : Type := mk3 { e0 : A; e1 : A; e2 : A }.
Record arr4 (A : Type) : Type := mk4 { a0 : A; a1 : A; a2 : A; a3 : A }.

Arguments mk3 {A} _ _ _.
Arguments e0 {A} _.
Arguments e1 {A} _.
Arguments e2 {A} _.
Arguments mk4 {A} _ _ _ _.
Arguments a0 {A} _.
Arguments a1 {A} _.
Arguments a2 {A} _.
Arguments a3 {A} _.

Definition get3 {A} (v : arr3 A) (i : nat) : A :=
  match i with 0 => e0 v | 1 => e1 v | _ => e2 v end.

Definition set3 {A} (v : arr3 A) (i : nat) (x : A) : arr3 A :=
  match i with
  | 0 => mk3 x (e1 v) (e2 v)
  | 1 => mk3 (e0 v) x (e2 v)
  | 2 => mk3 (e0 v) (e1 v) x
  | _ => v
  end.

Definition get4 {A} (v : arr4 A) (i : nat) : A :=
  match i with 0 => a0 v | 1 => a1 v | 2 => a2 v | _ => a3 v end.

Definition set4 {A} (v : arr4 A) (i : nat) (x : A) : arr4 A :=
  match i with
  | 0 => mk4 x (a1 v) (a2 v) (a3 v)
  | 1 => mk4 (a0 v) x (a2 v) (a3 v)
  | 2 => mk4 (a0 v) (a1 v) x (a3 v)
  | 3 => mk4 (a0 v) (a1 v) (a2 v) x
  | _ => v
  end.

Definition Vector3f : Type := arr3 float.
Definition Matrix3f : Type := arr3 (arr3 float).
Definition Quatf : Type := arr4 float.
Definition Matrix4 : Type := arr4 (arr4 float).

(** [m[row][col]] and [m[row][col] = x]. *)
Definition mget (m : Matrix4) (row col : nat) : float := get4 (get4 m row) col.
Definition mset (m : Matrix4) (row col : nat) (x : float) : Matrix4 :=
  set4 m row (set4 (get4 m row) col x).

(** [for (i = 0; i < n; i++) body], threading the variables the body
    assigns. *)
Definition for_ {S : Type} (n : nat) (body : nat -> S -> S) (s : S) : S :=
  fold_left (fun s i => body i s) (seq 0 n) s.

(** Element-wise [Vector3f] difference and sum of the matrix library. *)
Definition vsub (a b : Vector3f) : Vector3f :=
  mk3 (e0 a - e0 b)%f32 (e1 a - e1 b)%f32 (e2 a - e2 b)%f32.
Definition vadd (a b : Vector3f) : Vector3f :=
  mk3 (e0 a + e0 b)%f32 (e1 a + e1 b)%f32 (e2 a + e2 b)%f32.

(** ** Constants and helpers of [mathlib] *)

(** Modelled from the spec: the macros [M_PI_F] and [M_TWOPI_F] are defined
    outside [src/]; the spec wraps the yaw difference to [-pi, pi], so they
    are the binary32 numbers nearest to pi and to 2 pi. *)
Definition M_PI_F : float := Eval vm_compute in lit 314159265358979323846 20.
Definition M_TWOPI_F : float := Eval vm_compute in lit 628318530717958647692 20.

(** Modelled from the spec: [math::radians] is defined outside [src/]; the
    spec reads [radians(10.0f)] as 10 degrees, so it is the conversion of
    degrees to radians, [degrees * (pi / 180)]. *)
Definition radians (degrees : float) : float :=
  (degrees * (M_PI_F / f_180))%f32.

(** Modelled from the spec: [math::constrain] is defined outside [src/]; the
    spec calls it a flat clamp: a value below the lower limit becomes the
    lower limit, a value above the upper limit becomes the upper limit, and
    any other value is returned as it is. *)
Definition constrain (val min_val max_val : float) : float :=
  if flt val min_val then min_val
  else if fgt val max_val then max_val
  else val.

(** ** The members of [Ekf] that [fuseMagCal] uses *)

Record imuSample : Type := {
  delta_ang : Vector3f;
  delta_ang_dt : float;
  time_us : Z                       (* uint64_t *)
}.

Record magSample : Type := { mag : Vector3f }.

Record stateSample : Type := {
  quat_nominal : Quatf;
  gyro_bias : Vector3f
}.

Record parameters : Type := { mag_noise : float }.

Record magCalStates : Type := {
  mag_bias : Vector3f;
  yaw_offset : float
}.

Record Ekf : Type := {
  _imu_sample_delayed : imuSample;
  _mag_sample_delayed : magSample;
  _state : stateSample;
  _R_to_earth : Matrix3f;
  _params : parameters;
  _mag_use_inhibit : bool;
  _mag_bias_ekf_active : bool;
  _mag_bias_ekf_yaw_last : float;
  _mag_bias_ekf_time_us : Z;        (* uint64_t *)
  _mag_cov_mat : Matrix4;
  _mag_cal_states : magCalStates
}.

(** Assignments to the members the method writes. *)
Definition set_active (ekf : Ekf) (b : bool) : Ekf :=
  {| _imu_sample_delayed := _imu_sample_delayed ekf;
     _mag_sample_delayed := _mag_sample_delayed ekf;
     _state := _state ekf;
     _R_to_earth := _R_to_earth ekf;
     _params := _params ekf;
     _mag_use_inhibit := _mag_use_inhibit ekf;
     _mag_bias_ekf_active := b;
     _mag_bias_ekf_yaw_last := _mag_bias_ekf_yaw_last ekf;
     _mag_bias_ekf_time_us := _mag_bias_ekf_time_us ekf;
     _mag_cov_mat := _mag_cov_mat ekf;
     _mag_cal_states := _mag_cal_states ekf |}.

Definition set_yaw_last (ekf : Ekf) (y : float) : Ekf :=
  {| _imu_sample_delayed := _imu_sample_delayed ekf;
     _mag_sample_delayed := _mag_sample_delayed ekf;
     _state := _state ekf;
     _R_to_earth := _R_to_earth ekf;
     _params := _params ekf;
     _mag_use_inhibit := _mag_use_inhibit ekf;
     _mag_bias_ekf_active := _mag_bias_ekf_active ekf;
     _mag_bias_ekf_yaw_last := y;
     _mag_bias_ekf_time_us := _mag_bias_ekf_time_us ekf;
     _mag_cov_mat := _mag_cov_mat ekf;
     _mag_cal_states := _mag_cal_states ekf |}.

Definition set_time_us (ekf : Ekf) (t : Z) : Ekf :=
  {| _imu_sample_delayed := _imu_sample_delayed ekf;
     _mag_sample_delayed := _mag_sample_delayed ekf;
     _state := _state ekf;
     _R_to_earth := _R_to_earth ekf;
     _params := _params ekf;
     _mag_use_inhibit := _mag_use_inhibit ekf;
     _mag_bias_ekf_active := _mag_bias_ekf_active ekf;
     _mag_bias_ekf_yaw_last := _mag_bias_ekf_yaw_last ekf;
     _mag_bias_ekf_time_us := t;
     _mag_cov_mat := _mag_cov_mat ekf;
     _mag_cal_states := _mag_cal_states ekf |}.

Definition set_cov_mat (ekf : Ekf) (P : Matrix4) : Ekf :=
  {| _imu_sample_delayed := _imu_sample_delayed ekf;
     _mag_sample_delayed := _mag_sample_delayed ekf;
     _state := _state ekf;
     _R_to_earth := _R_to_earth ekf;
     _params := _params ekf;
     _mag_use_inhibit := _mag_use_inhibit ekf;
     _mag_bias_ekf_active := _mag_bias_ekf_active ekf;
     _mag_bias_ekf_yaw_last := _mag_bias_ekf_yaw_last ekf;
     _mag_bias_ekf_time_us := _mag_bias_ekf_time_us ekf;
     _mag_cov_mat := P;
     _mag_cal_states := _mag_cal_states ekf |}.

Definition set_cal_states (ekf : Ekf) (x : magCalStates) : Ekf :=
  {| _imu_sample_delayed := _imu_sample_delayed ekf;
     _mag_sample_delayed := _mag_sample_delayed ekf;
     _state := _state ekf;
     _R_to_earth := _R_to_earth ekf;
     _params := _params ekf;
     _mag_use_inhibit := _mag_use_inhibit ekf;
     _mag_bias_ekf_active := _mag_bias_ekf_active ekf;
     _mag_bias_ekf_yaw_last := _mag_bias_ekf_yaw_last ekf;
     _mag_bias_ekf_time_us := _mag_bias_ekf_time_us ekf;
     _mag_cov_mat := _mag_cov_mat ekf;
     _mag_cal_states := x |}.

(** What the method prints: the [ECL_ERR] line of the fault path, and the
    two [printf] lines of a completed fusion with the values they format. *)
Inductive event : Type :=
  | ECL_ERR_covariance_reset
  | printf_states (b0 b1 b2 yaw : float)
  | printf_innov (i0 i1 i2 : float).

(** ** Functions the method calls that live outside this file

    The C library's [cosf] and [sinf], the matrix library's Euler angles of
    a quaternion (component 2, the yaw), quaternion product and matrix
    times vector, and the filter's own [quat_to_invrotmat] and
    [getGeoMagNED].  Nothing is assumed of them. *)
Class Extern : Type := {
  cosf : float -> float;
  sinf : float -> float;
  euler321_yaw : Quatf -> float;
  quat_mul : Quatf -> Quatf -> Quatf;
  quat_to_invrotmat : Quatf -> Matrix3f;
  mat_vec : Matrix3f -> Vector3f -> Vector3f;
  getGeoMagNED : Vector3f
}.

(** ** [Ekf::fuseMagCal] *)

(** The diagonal prior: [memset] to zero, then the four diagonal
    assignments (lines 96-100 and 229-233). *)
Definition zero_mat : Matrix4 :=
  let z := mk4 f_0 f_0 f_0 f_0 in mk4 z z z z.

Definition prior_cov : Matrix4 :=
  let P := zero_mat in
  let P := mset P 0 0 f_0_25 in
  let P := mset P 1 1 f_0_25 in
  let P := mset P 2 2 f_0_25 in
  let P := mset P 3 3 f_1 in
  P.

(** The values computed once per call, before the loop over the axes
    (lines 116-169), under the names of the source. *)
Record locals : Type := {
  mag_obs_predicted : Vector3f;
  R_MAG : float;
  q0 : float; q1 : float; q2 : float;
  mn : float; me : float; md : float;
  t2 : float; t3 : float; t4 : float; t5 : float; t6 : float; t7 : float;
  t8 : float; t9 : float; t10 : float; t15 : float; t11 : float;
  t12 : float; t13 : float; t14 : float; t16 : float; t17 : float;
  t18 : float; t19 : float; t20 : float; t21 : float; t22 : float;
  t23 : float; t24 : float
}.

(** The variables the loop over the axes carries from one axis to the
    next: the object and the [innovation] array.  [H_MAG] and [Kfusion] are
    written in full by every axis before it reads them. *)
Record loop_state : Type := {
  ls_ekf : Ekf;
  ls_innovation : arr3 float
}.

(** How one axis, and the loop, ends: [return] from inside the loop after
    the covariance reset, or falling through. *)
Inductive loop_result : Type :=
  | Continue (s : loop_state)
  | Return (ekf : Ekf).

Section FuseMagCal.

Context {E : Extern}.

Local Open Scope f32_scope.

(** Lines 52-61: the bias corrected delta angle, the yaw rate and the tilt
    test. *)
Definition corrected_delta_ang (ekf : Ekf) : Vector3f :=
  vsub (delta_ang (_imu_sample_delayed ekf)) (gyro_bias (_state ekf)).

Definition yaw_rate (ekf : Ekf) : float :=
  let R := _R_to_earth ekf in
  let d := corrected_delta_ang ekf in
  (get3 (get3 R 2) 0 * get3 d 0
   + get3 (get3 R 2) 1 * get3 d 1
   + get3 (get3 R 2) 2 * get3 d 2)
  / delta_ang_dt (_imu_sample_delayed ekf).

Definition tilt_ok (ekf : Ekf) : bool :=
  fgt (get3 (get3 (_R_to_earth ekf) 2) 2) (cosf (radians f_45)).

(** Lines 63-67: the two tests that switch [_mag_bias_ekf_active]. *)
Definition update_active (ekf : Ekf) : Ekf :=
  if negb (_mag_bias_ekf_active ekf)
     && fgt (fabsf (yaw_rate ekf)) (radians f_10) && tilt_ok ekf
  then set_active ekf true
  else if _mag_bias_ekf_active ekf
          && (flt (fabsf (yaw_rate ekf)) (radians f_5) || negb (tilt_ok ekf))
  then set_active ekf false
  else ekf.

(** Lines 81-87: the yaw of the attitude and its difference to the yaw of
    the last pass, brought back by one turn when it leaves [-pi, pi]. *)
Definition euler321_2 (ekf : Ekf) : float :=
  euler321_yaw (quat_nominal (_state ekf)).

Definition yaw_delta (ekf : Ekf) : float :=
  let yaw_delta := euler321_2 ekf - _mag_bias_ekf_yaw_last ekf in
  if fgt yaw_delta M_PI_F then yaw_delta - M_TWOPI_F
  else if flt yaw_delta (- M_PI_F) then yaw_delta + M_TWOPI_F
  else yaw_delta.

(** Line 94: the unsigned 64 bit difference of the two time stamps,
    converted to [float] and scaled to seconds. *)
Definition time_delta_sec (ekf : Ekf) : float :=
  f_1E_6 * of_Z ((time_us (_imu_sample_delayed ekf) - _mag_bias_ekf_time_us ekf)
                 mod 2 ^ 64).

(** Lines 95-105: the reset of covariance, states and time stamp. *)
Definition reset_filter (ekf : Ekf) : Ekf :=
  let ekf := set_cov_mat ekf prior_cov in
  let bias := mag_bias (_mag_cal_states ekf) in
  let bias := set3 bias 0 f_0 in
  let bias := set3 bias 1 f_0 in
  let bias := set3 bias 2 f_0 in
  let ekf := set_cal_states ekf {| mag_bias := bias; yaw_offset := f_0 |} in
  set_time_us ekf (time_us (_imu_sample_delayed ekf)).

(** Lines 112-114: process noise on the yaw offset variance. *)
Definition yaw_process_noise_variance (time_delta_sec : float) : float :=
  let v := time_delta_sec * radians f_0_5 in
  v * v.

Definition add_process_noise (ekf : Ekf) (time_delta_sec : float) : Ekf :=
  let P := _mag_cov_mat ekf in
  set_cov_mat ekf
    (mset P 3 3 (mget P 3 3 + yaw_process_noise_variance time_delta_sec)).

(** Lines 117-169. *)
Definition quat_relative (ekf : Ekf) : Quatf :=
  let yaw := yaw_offset (_mag_cal_states ekf) in
  quat_mul (quat_nominal (_state ekf)) (mk4 (cosf yaw) f_0 f_0 (sinf yaw)).

Definition compute_locals (ekf : Ekf) : locals :=
  let mag_EF := getGeoMagNED in
  let quat_relative := quat_relative ekf in
  let Teb := quat_to_invrotmat quat_relative in
  let mag_obs_predicted :=
    vadd (mat_vec Teb mag_EF) (mag_bias (_mag_cal_states ekf)) in
  let R_MAG := fmaxf (mag_noise (_params ekf)) f_0 in
  let R_MAG := R_MAG * R_MAG in
  let q0 := get4 quat_relative 0 in
  let q1 := get4 quat_relative 1 in
  let q2 := get4 quat_relative 2 in
  let mn := get3 mag_EF 0 in
  let me := get3 mag_EF 1 in
  let md := get3 mag_EF 2 in
  let t2 := cosf (yaw_offset (_mag_cal_states ekf)) in
  let t3 := sinf (yaw_offset (_mag_cal_states ekf)) in
  let t4 := q1 * t2 in
  let t5 := q0 * t3 in
  let t6 := t4 + t5 in
  let t7 := q2 * t2 in
  let t8 := q1 * t3 in
  let t9 := t7 + t8 in
  let t10 := q0 * t2 in
  let t15 := q2 * t3 in
  let t11 := t4 - t15 in
  let t12 := q0 * t2 * t9 * f_2 in
  let t13 := t8 - t10 in
  let t14 := q0 * t3 * t13 * f_2 in
  let t16 := q0 * t3 * t11 * f_2 in
  let t17 := q0 * q0 in
  let t18 := t9 * t11 * f_2 in
  let t19 := q0 * t2 * t6 * f_2 in
  let t20 := t6 * t11 * f_2 in
  let t21 := t2 * t3 * t17 * f_4 in
  let t22 := t6 * t13 * f_2 in
  let t23 := t18 + t22 in
  let t24 := t12 - t14 + t16 + t19 in
  {| mag_obs_predicted := mag_obs_predicted; R_MAG := R_MAG;
     q0 := q0; q1 := q1; q2 := q2; mn := mn; me := me; md := md;
     t2 := t2; t3 := t3; t4 := t4; t5 := t5; t6 := t6; t7 := t7;
     t8 := t8; t9 := t9; t10 := t10; t15 := t15; t11 := t11;
     t12 := t12; t13 := t13; t14 := t14; t16 := t16; t17 := t17;
     t18 := t18; t19 := t19; t20 := t20; t21 := t21; t22 := t22;
     t23 := t23; t24 := t24 |}.

End FuseMagCal.

(** Lines 180-204: the observation Jacobian of one axis. *)
Definition H_MAG_of (L : locals) (index : nat) : arr4 float :=
  let H_MAG := mk4 f_0 f_0 f_0 f_0 in
  match index with
  | 0 =>
    let H_MAG := set4 H_MAG 0 f_1 in
    let H_MAG := set4 H_MAG 1 f_0 in
    let H_MAG := set4 H_MAG 2 f_0 in
    set4 H_MAG 3
      ((- md L) * (t12 L + t14 L + t16 L - q0 L * t2 L * t6 L * f_2)
       - me L * t24 L
       + mn L * (t18 L + t6 L * (t10 L - q1 L * t3 L) * f_2
                 - t2 L * t3 L * t17 L * f_4))%f32
  | 1 =>
    let H_MAG := set4 H_MAG 0 f_0 in
    let H_MAG := set4 H_MAG 1 f_1 in
    let H_MAG := set4 H_MAG 2 f_0 in
    set4 H_MAG 3
      (me L * t23 L
       - md L * (t20 L + t21 L - t9 L * t13 L * f_2)
       + mn L * (t12 L + t14 L + t16 L - t19 L))%f32
  | 2 =>
    let H_MAG := set4 H_MAG 0 f_0 in
    let H_MAG := set4 H_MAG 1 f_0 in
    let H_MAG := set4 H_MAG 2 f_1 in
    set4 H_MAG 3
      ((- md L) * t23 L
       - mn L * t24 L
       + me L * (- t20 L + t21 L + t9 L * t13 L * f_2))%f32
  | _ => H_MAG                      (* the loop stops at index 2 *)
  end.

Section AxisUpdate.

Local Open Scope f32_scope.

(** Lines 208-218: [PH] and the innovation variance.  The local array [PH]
    is not initialised by its declaration; every element is assigned before
    it is read, so the start value given here is never observed (the same
    holds for [Kfusion], [KHP] and [innovation] below). *)
Definition innov_var_loop (P : Matrix4) (H_MAG : arr4 float) (R_MAG : float)
  : arr4 float * float :=
  for_ 4
    (fun row '(PH, mag_innov_var) =>
       let PH := set4 PH row f_0 in
       let PH :=
         for_ 4 (fun col PH =>
                   set4 PH row (get4 PH row + mget P row col * get4 H_MAG col))
              PH in
       (PH, mag_innov_var + get4 H_MAG row * get4 PH row))
    (mk4 f_0 f_0 f_0 f_0, R_MAG).

(** Lines 242-251: the Kalman gains. *)
Definition kalman_gains (P : Matrix4) (H_MAG : arr4 float)
           (mag_innov_var_inv : float) : arr4 float :=
  for_ 4
    (fun row Kfusion =>
       let Kfusion := set4 Kfusion row f_0 in
       let Kfusion :=
         for_ 4 (fun col Kfusion =>
                   set4 Kfusion row
                        (get4 Kfusion row + mget P row col * get4 H_MAG col))
              Kfusion in
       set4 Kfusion row (get4 Kfusion row * mag_innov_var_inv))
    (mk4 f_0 f_0 f_0 f_0).

(** Lines 256-273: [KHP = K * H * P]. *)
Definition compute_KHP (P : Matrix4) (Kfusion H_MAG : arr4 float) : Matrix4 :=
  for_ 4
    (fun row KHP =>
       let KH := mk4 (get4 Kfusion row * get4 H_MAG 0)
                     (get4 Kfusion row * get4 H_MAG 1)
                     (get4 Kfusion row * get4 H_MAG 2)
                     (get4 Kfusion row * get4 H_MAG 3) in
       for_ 4 (fun col KHP =>
                 let tmp := get4 KH 0 * mget P 0 col in
                 let tmp := tmp + get4 KH 1 * mget P 1 col in
                 let tmp := tmp + get4 KH 2 * mget P 2 col in
                 let tmp := tmp + get4 KH 3 * mget P 3 col in
                 mset KHP row col tmp)
            KHP)
    zero_mat.

(** Lines 276-280: [P = P - KHP]. *)
Definition subtract_KHP (P KHP : Matrix4) : Matrix4 :=
  for_ 4
    (fun row P =>
       for_ 4 (fun col P => mset P row col (mget P row col - mget KHP row col))
            P)
    P.

(** Lines 284-290: force symmetry. *)
Definition force_symmetry (P : Matrix4) : Matrix4 :=
  for_ 4
    (fun row P =>
       for_ row (fun col P =>
                   let tmp := (mget P row col + mget P col row) / f_2 in
                   let P := mset P row col tmp in
                   mset P col row tmp)
            P)
    P.

(** Lines 292-294: force positive variances. *)
Definition force_positive (P : Matrix4) : Matrix4 :=
  for_ 4 (fun col P => mset P col col (fmaxf (mget P col col) f_1e_12)) P.

(** Lines 253-294: the covariance after the correction of one axis. *)
Definition correct_covariance (P : Matrix4) (Kfusion H_MAG : arr4 float)
  : Matrix4 :=
  let KHP := compute_KHP P Kfusion H_MAG in
  let P := subtract_KHP P KHP in
  let P := force_symmetry P in
  force_positive P.

(** Lines 299-309: the state correction by the limited innovation [innov],
    then the limits on the states. *)
Definition correct_states (x : magCalStates) (Kfusion : arr4 float)
           (innov : float) : magCalStates :=
  let bias_limit := f_0_5 in
  let bias := mag_bias x in
  let bias := set3 bias 0 (get3 bias 0 - get4 Kfusion 0 * innov) in
  let bias := set3 bias 1 (get3 bias 1 - get4 Kfusion 1 * innov) in
  let bias := set3 bias 2 (get3 bias 2 - get4 Kfusion 2 * innov) in
  let yaw := yaw_offset x - get4 Kfusion 3 * innov in
  let bias := set3 bias 0 (constrain (get3 bias 0) (- bias_limit) bias_limit) in
  let bias := set3 bias 1 (constrain (get3 bias 1) (- bias_limit) bias_limit) in
  let bias := set3 bias 2 (constrain (get3 bias 2) (- bias_limit) bias_limit) in
  let yaw := constrain yaw (- radians f_180) (radians f_180) in
  {| mag_bias := bias; yaw_offset := yaw |}.

(** Lines 178-310: the body of the loop for the axis [index]. *)
Definition fuse_axis (L : locals) (index : nat) (s : loop_state)
  : loop_result :=
  let ekf := ls_ekf s in
  let H_MAG := H_MAG_of L index in
  let innovation :=
    set3 (ls_innovation s) index
         (get3 (mag_obs_predicted L) index
          - get3 (mag (_mag_sample_delayed ekf)) index) in
  let '(PH, mag_innov_var) :=
    innov_var_loop (_mag_cov_mat ekf) H_MAG (R_MAG L) in
  if fge mag_innov_var (R_MAG L) then
    let mag_innov_var_inv := f_1 / mag_innov_var in
    let Kfusion := kalman_gains (_mag_cov_mat ekf) H_MAG mag_innov_var_inv in
    let ekf :=
      set_cov_mat ekf (correct_covariance (_mag_cov_mat ekf) Kfusion H_MAG) in
    let innov_limit := f_0_5 in
    let innovation :=
      set3 innovation index
           (constrain (get3 innovation index) (- innov_limit) innov_limit) in
    let ekf :=
      set_cal_states ekf
        (correct_states (_mag_cal_states ekf) Kfusion (get3 innovation index)) in
    Continue {| ls_ekf := ekf; ls_innovation := innovation |}
  else
    Return (set_cov_mat ekf prior_cov).

(** Line 177: the loop over the axes, left at the first [return]. *)
Fixpoint fuse_axes (L : locals) (axes : list nat) (s : loop_state)
  : loop_result :=
  match axes with
  | [] => Continue s
  | index :: rest =>
    match fuse_axis L index s with
    | Continue s' => fuse_axes L rest s'
    | Return ekf => Return ekf
    end
  end.

End AxisUpdate.

Section Method.

Context {E : Extern}.

(** The two debug lines printed after a completed loop (lines 315-318). *)
Definition replay_debug (s : loop_state) : list event :=
  let x := _mag_cal_states (ls_ekf s) in
  let innovation := ls_innovation s in
  [ printf_states (get3 (mag_bias x) 0) (get3 (mag_bias x) 1)
                  (get3 (mag_bias x) 2) (yaw_offset x);
    printf_innov (get3 innovation 0) (get3 innovation 1) (get3 innovation 2) ].

(** The tests of the four early [return]s, each on the object as it is when
    the test is made: line 55, line 76, line 88 and line 95. *)
Definition dt_valid (ekf : Ekf) : bool :=
  fgt (delta_ang_dt (_imu_sample_delayed ekf)) f_0_0001.

Definition suppressed (ekf : Ekf) : bool :=
  negb (_mag_use_inhibit ekf) || negb (_mag_bias_ekf_active ekf).

Definition throttled (ekf : Ekf) : bool :=
  flt (fabsf (yaw_delta ekf)) (radians f_10).

Definition stale (ekf : Ekf) : bool :=
  (_mag_bias_ekf_time_us ekf =? 0)%Z || fgt (time_delta_sec ekf) f_20.

(** The loop starts with [innovation] not initialised. *)
Definition enter_loop (ekf : Ekf) : loop_state :=
  {| ls_ekf := ekf; ls_innovation := mk3 f_0 f_0 f_0 |}.

(** Lines 312-318, after a loop that ran to its end: the time stamp and
    the debug lines; after a [return] from the loop, the error line only. *)
Definition finish (r : loop_result) : Ekf * list event :=
  match r with
  | Return ekf => (ekf, [ECL_ERR_covariance_reset])
  | Continue s =>
    (set_time_us (ls_ekf s) (time_us (_imu_sample_delayed (ls_ekf s))),
     replay_debug s)
  end.

(** [void Ekf::fuseMagCal()]: the object after the call and the lines
    printed. *)
Definition fuseMagCal (ekf : Ekf) : Ekf * list event :=
  if dt_valid ekf then
    let ekf := update_active ekf in
    if suppressed ekf then (ekf, [])
    else if throttled ekf then (ekf, [])
    else
      let ekf := set_yaw_last ekf (euler321_2 ekf) in
      let time_delta_sec := time_delta_sec ekf in
      if stale ekf then (reset_filter ekf, [])
      else
        let ekf := add_process_noise ekf time_delta_sec in
        let L := compute_locals ekf in
        finish (fuse_axes L [0; 1; 2] (enter_loop ekf))
  else
    (ekf, []).

(** ** The paths through the method, for the statements below *)

(** The call returns at line 71, 77 or 89. *)
Definition skips (ekf : Ekf) : bool :=
  negb (dt_valid ekf)
  || suppressed (update_active ekf)
  || throttled (update_active ekf).

(** The object at the staleness test of line 95, when the call gets there. *)
Definition after_gates (ekf : Ekf) : Ekf :=
  let ekf := update_active ekf in
  set_yaw_last ekf (euler321_2 ekf).

(** The call gets past line 109, to the process noise and the loop. *)
Definition fuses (ekf : Ekf) : bool :=
  negb (skips ekf) && negb (stale (after_gates ekf)).

(** The object at line 116, with the process noise added, and the values
    computed from it before the loop. *)
Definition loop_entry (ekf : Ekf) : Ekf :=
  add_process_noise (after_gates ekf) (time_delta_sec (after_gates ekf)).

Definition loop_locals (ekf : Ekf) : locals := compute_locals (loop_entry ekf).

(** The innovation variance and the Kalman gains that the axis [index]
    computes from the object [ekf] it starts with. *)
Definition mag_innov_var (L : locals) (index : nat) (ekf : Ekf) : float :=
  snd (innov_var_loop (_mag_cov_mat ekf) (H_MAG_of L index) (R_MAG L)).

Definition Kfusion_of (L : locals) (index : nat) (ekf : Ekf) : arr4 float :=
  kalman_gains (_mag_cov_mat ekf) (H_MAG_of L index)
               (f_1 / mag_innov_var L index ekf)%f32.

(** The innovation of the axis [index] as line 205 computes it, and as
    line 298 limits it. *)
Definition innovation_of (L : locals) (index : nat) (ekf : Ekf) : float :=
  (get3 (mag_obs_predicted L) index
   - get3 (mag (_mag_sample_delayed ekf)) index)%f32.

Definition limited_innovation (L : locals) (index : nat) (ekf : Ekf) : float :=
  constrain (innovation_of L index ekf) (- f_0_5)%f32 f_0_5.

End Method.

(** [changes_filter_only a b]: the object [b] differs from [a] at most in
    the covariance matrix and the calibration states. *)
Definition changes_filter_only (a b : Ekf) : Prop :=
  b = set_cal_states (set_cov_mat a (_mag_cov_mat b)) (_mag_cal_states b).

(** The measurement model in the words of the specification,
    h(state) = R(yawOffset) * earthField + bias: the earth field rotated by
    the earth to body rotation of the attitude quaternion times the yaw
    quaternion of the yaw offset, plus the bias. *)
Definition h_of_state {E : Extern} (attitude : Quatf) (x : magCalStates)
  : Vector3f :=
  let quat_yaw := mk4 (cosf (yaw_offset x)) f_0 f_0 (sinf (yaw_offset x)) in
  let Teb := quat_to_invrotmat (quat_mul attitude quat_yaw) in
  vadd (mat_vec Teb getGeoMagNED) (mag_bias x).

(** ** A concrete setting for the examples

    The examples need values for the outside functions.  [cosf] and [sinf]
    are given at the arguments the examples use (0, and 45 degrees for the
    tilt threshold), where the values are cos 0 = 1, sin 0 = 0 and
    cos (pi/4) = sin (pi/4) = 0.70710677f; the yaw of the identity quaternion
    is 0.  The quaternion product is Hamilton's, the rotation matrix is the
    transpose of the direction cosine matrix of the quaternion, and the
    matrix times vector product sums each row from the left. *)

Definition ref_cosf (x : float) : float :=
  match x with
  | S754_zero _ => f_1
  | _ => if feq x (radians f_45) then S754_finite false 11863283 (-24)
         else S754_nan
  end.

Definition ref_sinf (x : float) : float :=
  match x with
  | S754_zero _ => x
  | _ => if feq x (radians f_45) then S754_finite false 11863283 (-24)
         else S754_nan
  end.

Definition quat_identity : Quatf := mk4 f_1 f_0 f_0 f_0.

Definition ref_euler321_yaw (q : Quatf) : float :=
  if feq (a0 q) f_1 && feq (a1 q) f_0 && feq (a2 q) f_0 && feq (a3 q) f_0
  then f_0 else S754_nan.

Definition ref_quat_mul (p q : Quatf) : Quatf :=
  mk4 (a0 p * a0 q - a1 p * a1 q - a2 p * a2 q - a3 p * a3 q)%f32
      (a0 p * a1 q + a1 p * a0 q + a2 p * a3 q - a3 p * a2 q)%f32
      (a0 p * a2 q - a1 p * a3 q + a2 p * a0 q + a3 p * a1 q)%f32
      (a0 p * a3 q + a1 p * a2 q - a2 p * a1 q + a3 p * a0 q)%f32.

Definition ref_quat_to_invrotmat (quat : Quatf) : Matrix3f :=
  let q00 := (a0 quat * a0 quat)%f32 in
  let q11 := (a1 quat * a1 quat)%f32 in
  let q22 := (a2 quat * a2 quat)%f32 in
  let q33 := (a3 quat * a3 quat)%f32 in
  let q01 := (a0 quat * a1 quat)%f32 in
  let q02 := (a0 quat * a2 quat)%f32 in
  let q03 := (a0 quat * a3 quat)%f32 in
  let q12 := (a1 quat * a2 quat)%f32 in
  let q13 := (a1 quat * a3 quat)%f32 in
  let q23 := (a2 quat * a3 quat)%f32 in
  mk3 (mk3 (q00 + q11 - q22 - q33) (f_2 * (q12 + q03)) (f_2 * (q13 - q02)))%f32
      (mk3 (f_2 * (q12 - q03)) (q00 - q11 + q22 - q33) (f_2 * (q23 + q01)))%f32
      (mk3 (f_2 * (q13 + q02)) (f_2 * (q23 - q01)) (q00 - q11 - q22 + q33))%f32.

Definition ref_mat_vec (M : Matrix3f) (v : Vector3f) : Vector3f :=
  let row r := (f_0 + e0 r * e0 v + e1 r * e1 v + e2 r * e2 v)%f32 in
  mk3 (row (e0 M)) (row (e1 M)) (row (e2 M)).

(** An earth field of 0.2 north, 0 east, 0.4 down. *)
Definition ref_mag_EF : Vector3f := mk3 (lit 2 1) f_0 (lit 4 1).
Definition ref_mag_EF_value : Vector3f := Eval vm_compute in ref_mag_EF.

Definition ref_extern : Extern :=
  {| cosf := ref_cosf;
     sinf := ref_sinf;
     euler321_yaw := ref_euler321_yaw;
     quat_mul := ref_quat_mul;
     quat_to_invrotmat := ref_quat_to_invrotmat;
     mat_vec := ref_mat_vec;
     getGeoMagNED := ref_mag_EF |}.

Definition mat3_identity : Matrix3f :=
  mk3 (mk3 f_1 f_0 f_0) (mk3 f_0 f_1 f_0) (mk3 f_0 f_0 f_1).

(** A level vehicle yawing at 1 rad/s (0.004 rad in 0.004 s), one second
    after the last fusion, one radian of yaw away from it, the filter
    active with the prior covariance and zero states, and a magnetometer
    reading of (0.3, -0.05, 0.42). *)
Definition ekf_turning : Ekf :=
  {| _imu_sample_delayed :=
       {| delta_ang := mk3 f_0 f_0 (lit 4 3);
          delta_ang_dt := lit 4 3;
          time_us := 2000000 |};
     _mag_sample_delayed := {| mag := mk3 (lit 3 1) (fneg (lit 5 2)) (lit 42 2) |};
     _state := {| quat_nominal := quat_identity; gyro_bias := mk3 f_0 f_0 f_0 |};
     _R_to_earth := mat3_identity;
     _params := {| mag_noise := lit 5 2 |};
     _mag_use_inhibit := true;
     _mag_bias_ekf_active := true;
     _mag_bias_ekf_yaw_last := f_1;
     _mag_bias_ekf_time_us := 1000000;
     _mag_cov_mat := prior_cov;
     _mag_cal_states := {| mag_bias := mk3 f_0 f_0 f_0; yaw_offset := f_0 |} |}.

(** The same with a variance of -1 for the X bias. *)
Definition ekf_fault_X : Ekf :=
  set_cov_mat ekf_turning (mset prior_cov 0 0 (fneg f_1)).

(** The active filter on a vehicle that does not turn: no delta angle. *)
Definition ekf_not_turning : Ekf :=
  {| _imu_sample_delayed :=
       {| delta_ang := mk3 f_0 f_0 f_0;
          delta_ang_dt := lit 4 3;
          time_us := 2000000 |};
     _mag_sample_delayed := _mag_sample_delayed ekf_turning;
     _state := _state ekf_turning;
     _R_to_earth := mat3_identity;
     _params := _params ekf_turning;
     _mag_use_inhibit := true;
     _mag_bias_ekf_active := true;
     _mag_bias_ekf_yaw_last := f_1;
     _mag_bias_ekf_time_us := 1000000;
     _mag_cov_mat := prior_cov;
     _mag_cal_states := _mag_cal_states ekf_turning |}.

(** The turning vehicle 25 seconds after the last fusion, with calibration
    states (0.1, -0.05, 0.02) and 0.01. *)
Definition ekf_idle_gap : Ekf :=
  {| _imu_sample_delayed :=
       {| delta_ang := mk3 f_0 f_0 (lit 4 3);
          delta_ang_dt := lit 4 3;
          time_us := 26000000 |};
     _mag_sample_delayed := _mag_sample_delayed ekf_turning;
     _state := _state ekf_turning;
     _R_to_earth := mat3_identity;
     _params := _params ekf_turning;
     _mag_use_inhibit := true;
     _mag_bias_ekf_active := true;
     _mag_bias_ekf_yaw_last := f_1;
     _mag_bias_ekf_time_us := 1000000;
     _mag_cov_mat := prior_cov;
     _mag_cal_states :=
       {| mag_bias := mk3 (lit 1 1) (fneg (lit 5 2)) (lit 2 2);
          yaw_offset := lit 1 2 |} |}.

(** The turning vehicle before the first fusion: no time stamp yet. *)
Definition ekf_first_use : Ekf := set_time_us ekf_turning 0.

(** A second call on the time of the last fusion, with a zero covariance
    matrix and no magnetometer noise: every input is a finite number. *)
Definition ekf_zero_variance : Ekf :=
  {| _imu_sample_delayed :=
       {| delta_ang := mk3 f_0 f_0 (lit 4 3);
          delta_ang_dt := lit 4 3;
          time_us := 1000000 |};
     _mag_sample_delayed := _mag_sample_delayed ekf_turning;
     _state := _state ekf_turning;
     _R_to_earth := mat3_identity;
     _params := {| mag_noise := f_0 |};
     _mag_use_inhibit := true;
     _mag_bias_ekf_active := true;
     _mag_bias_ekf_yaw_last := f_1;
     _mag_bias_ekf_time_us := 1000000;
     _mag_cov_mat := zero_mat;
     _mag_cal_states := _mag_cal_states ekf_turning |}.

(** The loop state after the X axis of the turning vehicle. *)
Definition turning_after_X : loop_state :=
  Eval vm_compute in
    match fuse_axis (@loop_locals ref_extern ekf_turning) 0
                    (enter_loop (@loop_entry ref_extern ekf_turning)) with
    | Continue s => s
    | Return ekf => enter_loop ekf
    end.

(** The loop state after the X axis of that call. *)
Definition zero_variance_after_X : loop_state :=
  Eval vm_compute in
    match fuse_axis (@loop_locals ref_extern ekf_zero_variance) 0
                    (enter_loop (@loop_entry ref_extern ekf_zero_variance)) with
    | Continue s => s
    | Return ekf => enter_loop ekf
    end.

(** The turning vehicle with a yaw offset of 45 degrees and a covariance of
    1 between the Y bias and the yaw offset: the X axis is fused, and the
    innovation variance of the Y axis comes out negative. *)
Definition ekf_fault_Y : Ekf :=
  set_cal_states
    (set_cov_mat ekf_turning (mset (mset prior_cov 1 3 f_1) 3 1 f_1))
    {| mag_bias := mk3 f_0 f_0 f_0; yaw_offset := radians f_45 |}.

Definition fault_Y_after_X : loop_state :=
  Eval vm_compute in
    match fuse_axis (@loop_locals ref_extern ekf_fault_Y) 0
                    (enter_loop (@loop_entry ref_extern ekf_fault_Y)) with
    | Continue s => s
    | Return ekf => enter_loop ekf
    end.

(** The turning vehicle with a covariance of 0.1 between the X bias and the
    Y bias. *)
Definition ekf_correlated : Ekf :=
  set_cov_mat ekf_turning (mset (mset prior_cov 0 1 (lit 1 1)) 1 0 (lit 1 1)).

Definition correlated_after_X : loop_state :=
  Eval vm_compute in
    match fuse_axis (@loop_locals ref_extern ekf_correlated) 0
                    (enter_loop (@loop_entry ref_extern ekf_correlated)) with
    | Continue s => s
    | Return ekf => enter_loop ekf
    end.

(** The turning vehicle with a covariance matrix that is not symmetric,
    0.1 at [P[0][1]] and 0.3 at [P[1][0]], and has a variance of -1 for the
    Y bias. *)
Definition ekf_asymmetric : Ekf :=
  set_cov_mat ekf_turning
    (mset (mset (mset prior_cov 0 1 (lit 1 1)) 1 0 (lit 3 1)) 1 1 (fneg f_1)).

Definition asymmetric_after_X : loop_state :=
  Eval vm_compute in
    match fuse_axis (@loop_locals ref_extern ekf_asymmetric) 0
                    (enter_loop (@loop_entry ref_extern ekf_asymmetric)) with
    | Continue s => s
    | Return ekf => enter_loop ekf
    end.

(** The turning vehicle with a magnetometer reading whose X component is
    not a number. *)
Definition ekf_nan_reading : Ekf :=
  {| _imu_sample_delayed := _imu_sample_delayed ekf_turning;
     _mag_sample_delayed :=
       {| mag := mk3 S754_nan (fneg (lit 5 2)) (lit 42 2) |};
     _state := _state ekf_turning;
     _R_to_earth := mat3_identity;
     _params := _params ekf_turning;
     _mag_use_inhibit := true;
     _mag_bias_ekf_active := true;
     _mag_bias_ekf_yaw_last := f_1;
     _mag_bias_ekf_time_us := 1000000;
     _mag_cov_mat := prior_cov;
     _mag_cal_states := _mag_cal_states ekf_turning |}.

(** ** Predicates for the properties of whole calls *)

(** A number: not a NaN and not an infinity. *)
Definition is_number (a : float) : bool :=
  match a with
  | S754_zero _ | S754_finite _ _ _ => true
  | _ => false
  end.

(** The call resets the filter at lines 96-107. *)
Definition resets {E : Extern} (ekf : Ekf) : bool :=
  negb (skips ekf) && stale (after_gates ekf).

(** The covariance matrix holds the same value in [P[i][j]] and [P[j][i]]
    and has no diagonal entry below the floor of line 293. *)
Definition cov_ok (P : Matrix4) : Prop :=
  (forall i j : nat, mget P i j = mget P j i)
  /\ (forall k : nat, fge (mget P k k) f_1e_12 = true).

(** No calibration state is beyond the limits of lines 305-309. *)
Definition within_limits (v lo hi : float) : Prop :=
  flt v lo = false /\ fgt v hi = false.

Definition states_ok (x : magCalStates) : Prop :=
  (forall i : nat, within_limits (get3 (mag_bias x) i) (fneg f_0_5) f_0_5)
  /\ within_limits (yaw_offset x) (fneg (radians f_180)) (radians f_180).

(** The object the method is called on [n] times in a row, nothing else
    writing it in between. *)
Fixpoint call_n {E : Extern} (n : nat) (ekf : Ekf) : Ekf :=
  match n with
  | 0 => ekf
  | S n' => call_n n' (fst (fuseMagCal ekf))
  end.

(** An inactive filter on a vehicle that does not turn. *)
Definition ekf_parked : Ekf := set_active ekf_not_turning false.

(** The turning vehicle with a NaN at [P[1][2]]. *)
Definition ekf_nan_cov : Ekf :=
  set_cov_mat ekf_turning (mset prior_cov 1 2 S754_nan).

(** The turning vehicle with an X bias that is a NaN. *)
Definition ekf_nan_bias : Ekf :=
  set_cal_states ekf_turning
    {| mag_bias := mk3 S754_nan f_0 f_0; yaw_offset := f_0 |}.

(** The loop state after the three axes of the turning vehicle. *)
Definition turning_done : loop_state :=
  Eval vm_compute in
    match fuse_axes (@loop_locals ref_extern ekf_turning) [0; 1; 2]
                    (enter_loop (@loop_entry ref_extern ekf_turning)) with
    | Continue s => s
    | Return ekf => enter_loop ekf
    end.

(** The object with the inhibit flag off: the main filter uses the
    magnetometer. *)
Definition set_inhibit_off (ekf : Ekf) : Ekf :=
  {| _imu_sample_delayed := _imu_sample_delayed ekf;
     _mag_sample_delayed := _mag_sample_delayed ekf;
     _state := _state ekf;
     _R_to_earth := _R_to_earth ekf;
     _params := _params ekf;
     _mag_use_inhibit := false;
     _mag_bias_ekf_active := _mag_bias_ekf_active ekf;
     _mag_bias_ekf_yaw_last := _mag_bias_ekf_yaw_last ekf;
     _mag_bias_ekf_time_us := _mag_bias_ekf_time_us ekf;
     _mag_cov_mat := _mag_cov_mat ekf;
     _mag_cal_states := _mag_cal_states ekf |}.

(** The four calibration states by number, in the order of [Kfusion]: the
    three biases, then the yaw offset. *)
Definition cal_state (x : magCalStates) (k : nat) : float :=
  match k with
  | 0 | 1 | 2 => get3 (mag_bias x) k
  | _ => yaw_offset x
  end.

(** The limit of lines 305-309 on each of them: 0.5 for the biases, 180
    degrees for the yaw offset. *)
Definition state_limit (k : nat) : float :=
  match k with
  | 0 | 1 | 2 => f_0_5
  | _ => radians f_180
  end.

(** The turning vehicle with an attitude quaternion that holds a NaN: its
    yaw is a NaN. *)
Definition ekf_nan_attitude : Ekf :=
  {| _imu_sample_delayed := _imu_sample_delayed ekf_turning;
     _mag_sample_delayed := _mag_sample_delayed ekf_turning;
     _state := {| quat_nominal := mk4 S754_nan f_0 f_0 f_0;
                  gyro_bias := mk3 f_0 f_0 f_0 |};
     _R_to_earth := mat3_identity;
     _params := _params ekf_turning;
     _mag_use_inhibit := true;
     _mag_bias_ekf_active := true;
     _mag_bias_ekf_yaw_last := f_1;
     _mag_bias_ekf_time_us := 1000000;
     _mag_cov_mat := prior_cov;
     _mag_cal_states := _mag_cal_states ekf_turning |}.

(** The object with another magnetometer sample and other bias estimates,
    the yaw offset and everything else as they are. *)
Definition with_measurement (ekf : Ekf) (z : magSample) (b : Vector3f) : Ekf :=
  {| _imu_sample_delayed := _imu_sample_delayed ekf;
     _mag_sample_delayed := z;
     _state := _state ekf;
     _R_to_earth := _R_to_earth ekf;
     _params := _params ekf;
     _mag_use_inhibit := _mag_use_inhibit ekf;
     _mag_bias_ekf_active := _mag_bias_ekf_active ekf;
     _mag_bias_ekf_yaw_last := _mag_bias_ekf_yaw_last ekf;
     _mag_bias_ekf_time_us := _mag_bias_ekf_time_us ekf;
     _mag_cov_mat := _mag_cov_mat ekf;
     _mag_cal_states :=
       {| mag_bias := b; yaw_offset := yaw_offset (_mag_cal_states ekf) |} |}.

(** * Properties *)

(** ** The literals and the special values of binary32

    The mantissa and the exponent of each literal are those of its IEEE
    754 encoding: 0.0001f is 0x38D1B717, 1E-6f is 0x358637BD, 1e-12f is
    0x2B8CBCCC and M_PI_F is 0x40490FDB. *)

Example literal_0_0001 : f_0_0001 = S754_finite false 0xD1B717 (-37).
Proof. reflexivity. Qed.

Example literal_1E_6 : f_1E_6 = S754_finite false 0x8637BD (-43).
Proof. reflexivity. Qed.

Example literal_1e_12 : f_1e_12 = S754_finite false 0x8CBCCC (-63).
Proof. reflexivity. Qed.

Example literal_M_PI_F : M_PI_F = S754_finite false 0xC90FDB (-22).
Proof. reflexivity. Qed.

Example literals_valid :
  forallb (valid_binary prec emax)
          [f_1; f_2; f_4; f_5; f_10; f_20; f_45; f_180; f_0_5; f_0_25;
           f_0_0001; f_1E_6; f_1e_12; M_PI_F; M_TWOPI_F] = true.
Proof. reflexivity. Qed.

Example radians_180 : radians f_180 = M_PI_F.
Proof. vm_compute; reflexivity. Qed.

Example one_over_zero : (f_1 / f_0)%f32 = S754_infinity false.
Proof. reflexivity. Qed.

Example zero_times_infinity : (f_0 * S754_infinity false)%f32 = S754_nan.
Proof. reflexivity. Qed.

Example nan_compares_false :
  fge S754_nan f_0 = false /\ flt S754_nan f_0 = false
  /\ feq S754_nan S754_nan = false.
Proof. repeat split. Qed.

Example fmaxf_drops_nan : fmaxf S754_nan f_1e_12 = f_1e_12.
Proof. reflexivity. Qed.

Example constrain_keeps_nan : constrain S754_nan (fneg f_0_5) f_0_5 = S754_nan.
Proof. reflexivity. Qed.

(** ** Comparisons of binary32 numbers *)

Section Comparisons.

Lemma Pos_compare_cont_flip (p q : positive) :
  PosDef.Pos.compare_cont Eq q p = CompOpp (PosDef.Pos.compare_cont Eq p q).
Proof. exact (eq_sym (Pos.compare_cont_antisym p q Eq)). Qed.

Lemma SFcompare_antisym (a b : float) :
  SFcompare b a = option_map CompOpp (SFcompare a b).
Proof.
  destruct a as [sa|sa| |sa ma ea], b as [sb|sb| |sb mb eb];
    try reflexivity;
    try (destruct sa; reflexivity);
    try (destruct sb; reflexivity);
    try (destruct sa, sb; reflexivity).
  simpl. rewrite (Z.compare_antisym ea eb), (Pos_compare_cont_flip ma mb).
  destruct sa, sb; try reflexivity;
    destruct (ea ?= eb)%Z; simpl; try reflexivity;
    destruct (PosDef.Pos.compare_cont Eq ma mb); reflexivity.
Qed.

Lemma SFcompare_some (a b : float) :
  is_nan a = false -> is_nan b = false -> exists c, SFcompare a b = Some c.
Proof.
  destruct a, b; simpl; intros Ha Hb; try discriminate; eauto.
Qed.

Lemma flt_fge (a b : float) : flt a b = true -> fge a b = false.
Proof.
  unfold flt, fge, SFltb, SFleb. rewrite (SFcompare_antisym a b).
  destruct (SFcompare a b) as [[]|]; simpl; congruence.
Qed.

Lemma flt_irrefl (a : float) : flt a a = false.
Proof.
  unfold flt, SFltb. pose proof (SFcompare_antisym a a) as H.
  destruct (SFcompare a a) as [[]|]; simpl in H; congruence.
Qed.

Lemma fle_refl (a : float) : is_nan a = false -> fle a a = true.
Proof.
  intros Ha. unfold fle, SFleb. pose proof (SFcompare_antisym a a) as H.
  destruct (SFcompare_some a a Ha Ha) as [c Hc]. rewrite Hc in *.
  destruct c; simpl in H; congruence.
Qed.

Lemma feq_refl (a : float) : is_nan a = false -> feq a a = true.
Proof.
  intros Ha. unfold feq, SFeqb. pose proof (SFcompare_antisym a a) as H.
  destruct (SFcompare_some a a Ha Ha) as [c Hc]. rewrite Hc in *.
  destruct c; simpl in H; congruence.
Qed.

(** [a == a] holds exactly when [a] is not a NaN. *)
Lemma feq_same (a : float) : feq a a = negb (is_nan a).
Proof.
  destruct (is_nan a) eqn:Ha.
  - destruct a; try discriminate. reflexivity.
  - apply feq_refl. exact Ha.
Qed.

Lemma fle_not_fgt (a b : float) : fle a b = true -> fgt a b = false.
Proof.
  unfold fle, fgt, SFltb, SFleb. rewrite (SFcompare_antisym a b).
  destruct (SFcompare a b) as [[]|]; simpl; congruence.
Qed.

Lemma not_flt_fle (a b : float) :
  is_nan a = false -> is_nan b = false -> flt a b = false -> fle b a = true.
Proof.
  intros Ha Hb. unfold flt, fle, SFltb, SFleb.
  rewrite (SFcompare_antisym a b).
  destruct (SFcompare_some a b Ha Hb) as [c ->]. destruct c; simpl; congruence.
Qed.

Lemma fle_not_nan (a b : float) :
  fle a b = true -> is_nan a = false /\ is_nan b = false.
Proof.
  unfold fle, SFleb. destruct a, b; simpl; intros H; try discriminate; auto.
Qed.

End Comparisons.

(** [fmaxf] against a number returns at least that number, also for a NaN. *)
Lemma fmaxf_ge (x c : float) : is_nan c = false -> fge (fmaxf x c) c = true.
Proof.
  intros Hc. unfold fmaxf. rewrite Hc.
  destruct (is_nan x) eqn:Hx.
  - apply (fle_refl c Hc).
  - destruct (fgt x c) eqn:Hg.
    + unfold fge, fgt, SFleb, SFltb in *.
      destruct (SFcompare c x) as [[]|]; congruence.
    + apply (fle_refl c Hc).
Qed.

(** ** The clamp [constrain] *)

Section Constrain.

Variables val min_val max_val : float.
Hypothesis limits : fle min_val max_val = true.

Lemma constrain_not_below : flt (constrain val min_val max_val) min_val = false.
Proof.
  unfold constrain. destruct (flt val min_val) eqn:Hlo.
  - apply flt_irrefl.
  - destruct (fgt val max_val) eqn:Hhi; [|exact Hlo].
    change (fgt min_val max_val = false). now apply fle_not_fgt.
Qed.

Lemma constrain_not_above : fgt (constrain val min_val max_val) max_val = false.
Proof.
  unfold constrain. destruct (flt val min_val) eqn:Hlo.
  - now apply fle_not_fgt.
  - destruct (fgt val max_val) eqn:Hhi; [|exact Hhi].
    apply flt_irrefl.
Qed.

Lemma constrain_nan : is_nan (constrain val min_val max_val) = is_nan val.
Proof.
  destruct (fle_not_nan _ _ limits) as [Hmin Hmax].
  unfold constrain. destruct (flt val min_val) eqn:Hlo.
  - rewrite Hmin. destruct val; simpl in *; try reflexivity; discriminate.
  - destruct (fgt val max_val) eqn:Hhi; [|reflexivity].
    rewrite Hmax. destruct val, max_val; simpl in *; try reflexivity; discriminate.
Qed.

Lemma constrain_within :
  is_nan val = false ->
  fle min_val (constrain val min_val max_val) = true
  /\ fle (constrain val min_val max_val) max_val = true.
Proof.
  intros Hv. destruct (fle_not_nan _ _ limits) as [Hmin Hmax].
  unfold constrain. destruct (flt val min_val) eqn:Hlo.
  - split; [now apply fle_refl | exact limits].
  - destruct (fgt val max_val) eqn:Hhi.
    + split; [exact limits | now apply fle_refl].
    + split; [now apply not_flt_fle | now apply (not_flt_fle max_val val)].
Qed.

End Constrain.

(** ** The covariance matrix *)

Ltac run_loops :=
  cbv beta iota zeta delta
    [for_ fold_left seq mget mset get4 set4 get3 set3 a0 a1 a2 a3 e0 e1 e2
     force_symmetry force_positive subtract_KHP zero_mat prior_cov].

Ltac each_index i :=
  destruct i as [|[|[|i]]].

Lemma prior_cov_diag :
  prior_cov = mk4 (mk4 f_0_25 f_0 f_0 f_0) (mk4 f_0 f_0_25 f_0 f_0)
                  (mk4 f_0 f_0 f_0_25 f_0) (mk4 f_0 f_0 f_0 f_1).
Proof. reflexivity. Qed.

Lemma force_symmetry_sym (P : Matrix4) (i j : nat) :
  mget (force_symmetry P) i j = mget (force_symmetry P) j i.
Proof.
  destruct P as [[] [] [] []].
  each_index i; each_index j; run_loops; reflexivity.
Qed.

Lemma force_positive_sym (P : Matrix4) :
  (forall i j, mget P i j = mget P j i) ->
  forall i j, mget (force_positive P) i j = mget (force_positive P) j i.
Proof.
  intros H i j. destruct P as [[] [] [] []].
  each_index i; each_index j; run_loops; try reflexivity;
    first [ exact (H 0 1) | exact (H 0 2) | exact (H 0 3) | exact (H 1 2)
          | exact (H 1 3) | exact (H 2 3) | exact (H 1 0) | exact (H 2 0)
          | exact (H 3 0) | exact (H 2 1) | exact (H 3 1) | exact (H 3 2) ].
Qed.

Lemma force_positive_diag (P : Matrix4) (k : nat) :
  fge (mget (force_positive P) k k) f_1e_12 = true.
Proof.
  destruct P as [[] [] [] []].
  each_index k; run_loops; apply fmaxf_ge; reflexivity.
Qed.

Lemma correct_covariance_sym (P : Matrix4) (K H : arr4 float) (i j : nat) :
  mget (correct_covariance P K H) i j = mget (correct_covariance P K H) j i.
Proof.
  unfold correct_covariance. apply force_positive_sym. apply force_symmetry_sym.
Qed.

(** ** What one axis writes *)

Lemma changes_filter_only_refl (a : Ekf) : changes_filter_only a a.
Proof. destruct a; reflexivity. Qed.

Lemma changes_filter_only_trans (a b c : Ekf) :
  changes_filter_only a b -> changes_filter_only b c -> changes_filter_only a c.
Proof.
  unfold changes_filter_only. intros Hab Hbc. rewrite Hbc at 1. rewrite Hab at 1.
  reflexivity.
Qed.

Lemma changes_filter_only_write (a : Ekf) (P : Matrix4) (x : magCalStates) :
  changes_filter_only a (set_cal_states (set_cov_mat a P) x).
Proof. reflexivity. Qed.

Lemma changes_filter_only_cov (a : Ekf) (P : Matrix4) :
  changes_filter_only a (set_cov_mat a P).
Proof. destruct a; reflexivity. Qed.

(** The two ways out of the body of the loop. *)
Lemma fuse_axis_eq (L : locals) (index : nat) (s : loop_state) :
  index < 3 ->
  fuse_axis L index s =
  let ekf := ls_ekf s in
  if fge (mag_innov_var L index ekf) (R_MAG L) then
    Continue
      {| ls_ekf :=
           set_cal_states
             (set_cov_mat ekf
                (correct_covariance (_mag_cov_mat ekf) (Kfusion_of L index ekf)
                                    (H_MAG_of L index)))
             (correct_states (_mag_cal_states ekf) (Kfusion_of L index ekf)
                             (limited_innovation L index ekf));
         ls_innovation :=
           set3 (ls_innovation s) index (limited_innovation L index ekf) |}
  else Return (set_cov_mat ekf prior_cov).
Proof.
  intros Hi. unfold fuse_axis, mag_innov_var, Kfusion_of, limited_innovation,
    innovation_of, mag_innov_var.
  destruct (innov_var_loop (_mag_cov_mat (ls_ekf s)) (H_MAG_of L index) (R_MAG L))
    as [PH v]. cbn [snd].
  destruct (fge v (R_MAG L)); [|reflexivity].
  destruct (ls_innovation s) as [i0 i1 i2].
  destruct index as [|[|[|index]]]; [reflexivity | reflexivity | reflexivity | lia].
Qed.

Lemma fuse_axis_frame (L : locals) (index : nat) (s : loop_state) :
  match fuse_axis L index s with
  | Continue s' => changes_filter_only (ls_ekf s) (ls_ekf s')
  | Return ekf => changes_filter_only (ls_ekf s) ekf
  end.
Proof.
  unfold fuse_axis.
  destruct (innov_var_loop _ _ _) as [PH v].
  destruct (fge v (R_MAG L)).
  - apply changes_filter_only_write.
  - apply changes_filter_only_cov.
Qed.

Lemma fuse_axes_frame (L : locals) (axes : list nat) (s : loop_state) :
  match fuse_axes L axes s with
  | Continue s' => changes_filter_only (ls_ekf s) (ls_ekf s')
  | Return ekf => changes_filter_only (ls_ekf s) ekf
  end.
Proof.
  revert s. induction axes as [|index rest IH]; intros s; simpl.
  - apply changes_filter_only_refl.
  - pose proof (fuse_axis_frame L index s) as H1.
    destruct (fuse_axis L index s) as [s1|ekf1]; [|exact H1].
    specialize (IH s1).
    destruct (fuse_axes L rest s1);
      eapply changes_filter_only_trans; eassumption.
Qed.

Lemma fuse_axes_app (L : locals) (done rest : list nat) (s : loop_state) :
  fuse_axes L (done ++ rest) s =
  match fuse_axes L done s with
  | Continue s' => fuse_axes L rest s'
  | Return ekf => Return ekf
  end.
Proof.
  revert s. induction done as [|index done IH]; intros s; simpl.
  - reflexivity.
  - destruct (fuse_axis L index s); [apply IH | reflexivity].
Qed.

(** ** The paths through the method *)

Section Paths.

Context {E : Extern}.

Lemma update_active_eq (ekf : Ekf) :
  update_active ekf = set_active ekf (_mag_bias_ekf_active (update_active ekf)).
Proof.
  unfold update_active.
  destruct (negb (_mag_bias_ekf_active ekf)
            && fgt (fabsf (yaw_rate ekf)) (radians f_10) && tilt_ok ekf);
    [reflexivity|].
  destruct (_mag_bias_ekf_active ekf
            && (flt (fabsf (yaw_rate ekf)) (radians f_5) || negb (tilt_ok ekf)));
    [reflexivity|].
  destruct ekf; reflexivity.
Qed.

Lemma fuseMagCal_skips (ekf : Ekf) :
  skips ekf = true ->
  fuseMagCal ekf = (if dt_valid ekf then update_active ekf else ekf, []).
Proof.
  unfold skips, fuseMagCal. destruct (dt_valid ekf); simpl; [|reflexivity].
  destruct (suppressed (update_active ekf)); simpl; [reflexivity|].
  intros ->. reflexivity.
Qed.

Lemma skips_false (ekf : Ekf) :
  skips ekf = false ->
  dt_valid ekf = true /\ suppressed (update_active ekf) = false
  /\ throttled (update_active ekf) = false.
Proof.
  unfold skips. destruct (dt_valid ekf), (suppressed (update_active ekf)),
    (throttled (update_active ekf)); simpl; intros H; try discriminate; auto.
Qed.

Lemma fuseMagCal_reset (ekf : Ekf) :
  skips ekf = false -> stale (after_gates ekf) = true ->
  fuseMagCal ekf = (reset_filter (after_gates ekf), []).
Proof.
  intros Hs Hst. destruct (skips_false ekf Hs) as (Hdt & Hsup & Hthr).
  unfold fuseMagCal. rewrite Hdt. cbv zeta. rewrite Hsup, Hthr.
  fold (after_gates ekf). rewrite Hst. reflexivity.
Qed.

Lemma fuses_true (ekf : Ekf) :
  fuses ekf = true -> skips ekf = false /\ stale (after_gates ekf) = false.
Proof.
  unfold fuses. destruct (skips ekf), (stale (after_gates ekf)); simpl;
    intros H; try discriminate; auto.
Qed.

Lemma fuseMagCal_fuses (ekf : Ekf) :
  fuses ekf = true ->
  fuseMagCal ekf =
  finish (fuse_axes (loop_locals ekf) [0; 1; 2] (enter_loop (loop_entry ekf))).
Proof.
  intros H. destruct (fuses_true ekf H) as [Hs Hst].
  destruct (skips_false ekf Hs) as (Hdt & Hsup & Hthr).
  unfold fuseMagCal. rewrite Hdt. cbv zeta. rewrite Hsup, Hthr.
  fold (after_gates ekf). rewrite Hst. reflexivity.
Qed.

(** The gates write the activity flag and the reference yaw only. *)
Lemma after_gates_eq (ekf : Ekf) :
  after_gates ekf =
  set_yaw_last (set_active ekf (_mag_bias_ekf_active (update_active ekf)))
               (euler321_yaw (quat_nominal (_state ekf))).
Proof.
  unfold after_gates, euler321_2. rewrite (update_active_eq ekf) at 1 2.
  reflexivity.
Qed.

Lemma time_delta_sec_after_gates (ekf : Ekf) :
  time_delta_sec (after_gates ekf) = time_delta_sec ekf.
Proof. rewrite after_gates_eq. reflexivity. Qed.

End Paths.

(** ** The loop over the axes *)

Lemma axes_split (done rest : list nat) (index : nat) :
  [0; 1; 2] = done ++ index :: rest -> index < 3.
Proof.
  intros Haxes.
  destruct done as [|? [|? [|? [|? ?]]]]; simpl in Haxes;
    inversion Haxes; subst; lia.
Qed.

Lemma finish_fault (L : locals) (index : nat) (rest : list nat) (s : loop_state) :
  index < 3 ->
  flt (mag_innov_var L index (ls_ekf s)) (R_MAG L) = true ->
  finish (fuse_axes L (index :: rest) s)
  = (set_cov_mat (ls_ekf s) prior_cov, [ECL_ERR_covariance_reset]).
Proof.
  intros Hi Hlt. cbn [fuse_axes]. rewrite (fuse_axis_eq L index s Hi). cbv zeta.
  rewrite (flt_fge _ _ Hlt). reflexivity.
Qed.

Lemma fuse_axes_continue_time_us (L : locals) (axes : list nat) (s s' : loop_state) :
  fuse_axes L axes s = Continue s' ->
  _mag_bias_ekf_time_us (ls_ekf s') = _mag_bias_ekf_time_us (ls_ekf s).
Proof.
  intros H. pose proof (fuse_axes_frame L axes s) as Hframe.
  rewrite H in Hframe. rewrite Hframe. reflexivity.
Qed.

Lemma loop_entry_time_us {E : Extern} (ekf : Ekf) :
  _mag_bias_ekf_time_us (ls_ekf (enter_loop (loop_entry ekf)))
  = _mag_bias_ekf_time_us ekf.
Proof. unfold loop_entry. rewrite after_gates_eq. reflexivity. Qed.

(** ** The claims *)

(** C1.  In a call that gets to the loop over the axes X, Y, Z, let the
    axes before [index] have been fused without fault, leaving the loop
    state [s].  If the innovation variance of the axis [index] is less than
    the measurement noise variance [R_MAG], the call ends there: the object
    returned is the one the axis started with, except that its covariance is
    the diagonal prior diag(0.25, 0.25, 0.25, 1.0).  So the calibration
    states are those at the start of the axis, no later axis is fused, and
    the time stamp of the last fusion is the one the call began with. *)
Theorem C1_fault_resets_covariance_only
  {E : Extern} (ekf : Ekf) (done rest : list nat) (index : nat)
  (s : loop_state) :
  fuses ekf = true ->
  [0; 1; 2] = done ++ index :: rest ->
  fuse_axes (loop_locals ekf) done (enter_loop (loop_entry ekf)) = Continue s ->
  flt (mag_innov_var (loop_locals ekf) index (ls_ekf s))
      (R_MAG (loop_locals ekf)) = true ->
  fuseMagCal ekf
  = (set_cov_mat (ls_ekf s) prior_cov, [ECL_ERR_covariance_reset])
  /\ _mag_cov_mat (fst (fuseMagCal ekf))
     = mk4 (mk4 f_0_25 f_0 f_0 f_0) (mk4 f_0 f_0_25 f_0 f_0)
           (mk4 f_0 f_0 f_0_25 f_0) (mk4 f_0 f_0 f_0 f_1)
  /\ _mag_cal_states (fst (fuseMagCal ekf)) = _mag_cal_states (ls_ekf s)
  /\ _mag_bias_ekf_time_us (fst (fuseMagCal ekf)) = _mag_bias_ekf_time_us ekf.
Proof.
  intros Hfuses Haxes Hdone Hlt.
  pose proof (axes_split done rest index Haxes) as Hi.
  assert (Hcall : fuseMagCal ekf
                  = (set_cov_mat (ls_ekf s) prior_cov, [ECL_ERR_covariance_reset])).
  { rewrite (fuseMagCal_fuses ekf Hfuses), Haxes, fuse_axes_app, Hdone.
    apply (finish_fault _ index rest s Hi Hlt). }
  rewrite Hcall. cbn [fst]. repeat split.
  change (_mag_bias_ekf_time_us (ls_ekf s) = _mag_bias_ekf_time_us ekf).
  rewrite (fuse_axes_continue_time_us _ _ _ s Hdone).
  apply loop_entry_time_us.
Qed.

(** A fault at the X axis (the variance of the X bias is -1), and a fault
    at the Y axis after the X axis has corrected the states: the states
    returned are the corrected ones, and the time stamp is the old one. *)
Lemma C1_fault_witness :
  (snd (@fuseMagCal ref_extern ekf_fault_X) = [ECL_ERR_covariance_reset]
   /\ _mag_cov_mat (fst (@fuseMagCal ref_extern ekf_fault_X)) = prior_cov
   /\ _mag_cal_states (fst (@fuseMagCal ref_extern ekf_fault_X))
      = _mag_cal_states ekf_fault_X
   /\ _mag_bias_ekf_time_us (fst (@fuseMagCal ref_extern ekf_fault_X))
      = 1000000%Z)
  /\ (@fuseMagCal ref_extern ekf_fault_Y
      = (set_cov_mat (ls_ekf fault_Y_after_X) prior_cov,
         [ECL_ERR_covariance_reset])
      /\ _mag_cal_states (ls_ekf fault_Y_after_X)
         = {| mag_bias := mk3 (S754_finite false 14695079 (-26))
                              (S754_finite false 8817046 (-25))
                              (S754_zero false);
              yaw_offset := S754_finite false 8792827 (-23) |}
      /\ _mag_bias_ekf_time_us (fst (@fuseMagCal ref_extern ekf_fault_Y))
         = 1000000%Z).
Proof.
  split.
  - destruct (@C1_fault_resets_covariance_only ref_extern ekf_fault_X
                [] [1; 2] 0 (enter_loop (@loop_entry ref_extern ekf_fault_X)))
      as (Hcall & Hcov & Hx & Ht).
    + vm_compute; reflexivity.
    + reflexivity.
    + reflexivity.
    + vm_compute; reflexivity.
    + rewrite Hcall. cbn [fst snd]. split; [reflexivity|].
      split; [reflexivity|]. split; [reflexivity|].
      rewrite Hcall in Ht. exact Ht.
  - destruct (@C1_fault_resets_covariance_only ref_extern ekf_fault_Y
                [0] [2] 1 fault_Y_after_X)
      as (Hcall & Hcov & Hx & Ht).
    + vm_compute; reflexivity.
    + reflexivity.
    + vm_compute; reflexivity.
    + vm_compute; reflexivity.
    + split; [exact Hcall|]. split; [reflexivity|]. exact Ht.
Defined.

(** C2.  The claim fails for [==] when an entry is not a number.  With a
    zero covariance matrix and no magnetometer noise, all inputs finite,
    the innovation variance of the X axis is 0, which is not less than the
    noise variance 0, so the axis is fused without fault; the inverse of
    the variance is infinite, every gain is 0 times infinity, a NaN, and so
    is every entry of [P - KHP].  The floor of line 293 replaces the NaN on
    the diagonal by 1e-12; off the diagonal the average of two NaN is
    stored in both entries of the pair, and a NaN does not compare equal to
    itself. *)
Lemma C2_nan_pair_counterexample :
  R_MAG (@loop_locals ref_extern ekf_zero_variance) = S754_zero false
  /\ mag_innov_var (@loop_locals ref_extern ekf_zero_variance) 0
                   (@loop_entry ref_extern ekf_zero_variance) = S754_zero false
  /\ fuse_axis (@loop_locals ref_extern ekf_zero_variance) 0
               (enter_loop (@loop_entry ref_extern ekf_zero_variance))
     = Continue zero_variance_after_X
  /\ mget (_mag_cov_mat (ls_ekf zero_variance_after_X)) 0 1 = S754_nan
  /\ mget (_mag_cov_mat (ls_ekf zero_variance_after_X)) 1 0 = S754_nan
  /\ feq (mget (_mag_cov_mat (ls_ekf zero_variance_after_X)) 0 1)
         (mget (_mag_cov_mat (ls_ekf zero_variance_after_X)) 1 0)
     = false
  /\ mget (_mag_cov_mat (ls_ekf zero_variance_after_X)) 0 0 = f_1e_12.
Proof. vm_compute. repeat split. Qed.

(** C2, amended.  When the axis [index] is fused without fault, the
    covariance matrix it leaves (after the correction, the forced symmetry
    and the floor on the diagonal) holds the same value in [P[i][j]] and in
    [P[j][i]] for all [i] and [j], and every diagonal entry is a number that
    compares greater than or equal to 1e-12.  The two entries of a pair
    compare equal with [==] exactly when that value is not a NaN, which off
    the diagonal it can be. *)
Theorem C2_covariance_symmetric_and_floored
  (L : locals) (index : nat) (s s' : loop_state) :
  fuse_axis L index s = Continue s' ->
  let P := _mag_cov_mat (ls_ekf s') in
  (forall i j : nat, mget P i j = mget P j i)
  /\ (forall k : nat,
        fge (mget P k k) f_1e_12 = true /\ is_nan (mget P k k) = false)
  /\ (forall i j : nat,
        feq (mget P i j) (mget P j i) = negb (is_nan (mget P i j))).
Proof.
  unfold fuse_axis.
  destruct (innov_var_loop _ _ _) as [PH v].
  destruct (fge v (R_MAG L)); [|discriminate].
  intros H. injection H as <-.
  cbn [ls_ekf set_cal_states set_cov_mat _mag_cov_mat].
  split; [|split].
  - intros i j. apply correct_covariance_sym.
  - intros k. unfold correct_covariance.
    pose proof (force_positive_diag
                  (force_symmetry
                     (subtract_KHP (_mag_cov_mat (ls_ekf s))
                        (compute_KHP (_mag_cov_mat (ls_ekf s))
                           (kalman_gains (_mag_cov_mat (ls_ekf s))
                                         (H_MAG_of L index) (f_1 / v)%f32)
                           (H_MAG_of L index)))) k) as Hk.
    cbv zeta. split; [exact Hk|].
    apply (fle_not_nan _ _ Hk).
  - intros i j. rewrite <- (correct_covariance_sym _ _ _ i j).
    apply feq_same.
Qed.

(** The X axis of the vehicle with the asymmetric covariance is fused
    without fault: the pair 0.1 and 0.3 is left as one value in both
    entries, and the variance of -1 as 1e-12. *)
Lemma C2_asymmetric_X_witness :
  fuse_axis (@loop_locals ref_extern ekf_asymmetric) 0
            (enter_loop (@loop_entry ref_extern ekf_asymmetric))
  = Continue asymmetric_after_X
  /\ (mget (_mag_cov_mat ekf_asymmetric) 0 1 = S754_finite false 13421773 (-27)
      /\ mget (_mag_cov_mat ekf_asymmetric) 1 0
         = S754_finite false 10066330 (-25)
      /\ mget (_mag_cov_mat ekf_asymmetric) 1 1 = fneg f_1)
  /\ (mget (_mag_cov_mat (ls_ekf asymmetric_after_X)) 0 1
      = S754_finite false 8504912 (-32)
      /\ mget (_mag_cov_mat (ls_ekf asymmetric_after_X)) 1 0
         = S754_finite false 8504912 (-32)
      /\ mget (_mag_cov_mat (ls_ekf asymmetric_after_X)) 1 1 = f_1e_12)
  /\ (forall i j : nat,
         mget (_mag_cov_mat (ls_ekf asymmetric_after_X)) i j
         = mget (_mag_cov_mat (ls_ekf asymmetric_after_X)) j i)
  /\ (forall k : nat,
         fge (mget (_mag_cov_mat (ls_ekf asymmetric_after_X)) k k) f_1e_12
         = true)
  /\ feq (mget (_mag_cov_mat (ls_ekf asymmetric_after_X)) 0 1)
         (mget (_mag_cov_mat (ls_ekf asymmetric_after_X)) 1 0)
     = true.
Proof.
  assert (H : fuse_axis (@loop_locals ref_extern ekf_asymmetric) 0
                        (enter_loop (@loop_entry ref_extern ekf_asymmetric))
              = Continue asymmetric_after_X) by (vm_compute; reflexivity).
  split; [exact H|].
  split; [vm_compute; repeat split|].
  split; [vm_compute; repeat split|].
  destruct (C2_covariance_symmetric_and_floored _ 0 _ asymmetric_after_X H)
    as (Hsym & Hdiag & Heq).
  split; [exact Hsym|].
  split; [intros k; apply Hdiag|].
  rewrite (Heq 0 1). reflexivity.
Defined.

(** C3.  The claim fails for the activity flag: a call that skips may have
    switched it.  Here the filter is active and the vehicle does not turn:
    the flag goes off, and the call returns at line 77. *)
Lemma C3_activity_flag_counterexample :
  @skips ref_extern ekf_not_turning = true
  /\ _mag_bias_ekf_active ekf_not_turning = true
  /\ _mag_bias_ekf_active (fst (@fuseMagCal ref_extern ekf_not_turning)) = false.
Proof. vm_compute. repeat split. Qed.

(** C3, amended.  A call that takes a skip path (time interval not above
    0.0001, fusion suppressed, or less than 10 degrees of yaw) prints
    nothing and leaves everything but the activity flag as it was: the
    calibration states, the covariance, the reference yaw and the time stamp
    of the last fusion.  With an invalid time interval the flag is as it was
    too; otherwise it holds what the tests of lines 63-67 give. *)
Theorem C3_skip_paths_keep_filter
  {E : Extern} (ekf : Ekf) :
  skips ekf = true ->
  let after := fst (fuseMagCal ekf) in
  snd (fuseMagCal ekf) = []
  /\ after = set_active ekf (_mag_bias_ekf_active after)
  /\ _mag_cal_states after = _mag_cal_states ekf
  /\ _mag_cov_mat after = _mag_cov_mat ekf
  /\ _mag_bias_ekf_yaw_last after = _mag_bias_ekf_yaw_last ekf
  /\ _mag_bias_ekf_time_us after = _mag_bias_ekf_time_us ekf
  /\ (dt_valid ekf = false -> after = ekf)
  /\ (dt_valid ekf = true ->
      _mag_bias_ekf_active after = _mag_bias_ekf_active (update_active ekf)).
Proof.
  intros Hskip. cbv zeta. rewrite (fuseMagCal_skips ekf Hskip). cbn [fst snd].
  destruct (dt_valid ekf).
  - rewrite (update_active_eq ekf) at 1 3 4 5 6.
    repeat split; intros; discriminate.
  - repeat split; try (destruct ekf; reflexivity); intros; discriminate.
Qed.

Lemma C3_not_turning_witness :
  snd (@fuseMagCal ref_extern ekf_not_turning) = []
  /\ _mag_cov_mat (fst (@fuseMagCal ref_extern ekf_not_turning)) = prior_cov.
Proof.
  pose proof (@C3_skip_paths_keep_filter ref_extern ekf_not_turning) as H.
  cbv zeta in H. destruct H as (Hp & _ & _ & Hc & _).
  - vm_compute; reflexivity.
  - split; [exact Hp | exact Hc].
Defined.

(** C4.  A call that gets to the staleness test with the time stamp of the
    last fusion equal to 0, or with more than 20 seconds since then, resets
    the filter: the covariance becomes diag(0.25, 0.25, 0.25, 1.0) with
    zero off-diagonal terms, the three biases and the yaw offset become 0,
    the time of the sample becomes the time of the last fusion, and the
    call returns without fusing a measurement and without printing. *)
Theorem C4_stale_filter_is_reset
  {E : Extern} (ekf : Ekf) :
  skips ekf = false ->
  _mag_bias_ekf_time_us ekf = 0%Z \/ fgt (time_delta_sec ekf) f_20 = true ->
  let after := fst (fuseMagCal ekf) in
  fuseMagCal ekf = (reset_filter (after_gates ekf), [])
  /\ _mag_cov_mat after
     = mk4 (mk4 f_0_25 f_0 f_0 f_0) (mk4 f_0 f_0_25 f_0 f_0)
           (mk4 f_0 f_0 f_0_25 f_0) (mk4 f_0 f_0 f_0 f_1)
  /\ _mag_cal_states after
     = {| mag_bias := mk3 f_0 f_0 f_0; yaw_offset := f_0 |}
  /\ _mag_bias_ekf_time_us after = time_us (_imu_sample_delayed ekf).
Proof.
  intros Hskip Hstale.
  assert (Hst : stale (after_gates ekf) = true).
  { unfold stale. rewrite time_delta_sec_after_gates, after_gates_eq.
    cbn [set_yaw_last set_active _mag_bias_ekf_time_us].
    destruct Hstale as [-> | ->]; [reflexivity | apply orb_true_r]. }
  cbv zeta. rewrite (fuseMagCal_reset ekf Hskip Hst). cbn [fst].
  rewrite after_gates_eq. repeat split.
Qed.

(** A call 25 seconds after the last fusion, with states that are not
    zero. *)
Lemma C4_idle_gap_witness :
  fgt (time_delta_sec ekf_idle_gap) f_20 = true
  /\ _mag_cal_states (fst (@fuseMagCal ref_extern ekf_idle_gap))
     = {| mag_bias := mk3 f_0 f_0 f_0; yaw_offset := f_0 |}
  /\ _mag_bias_ekf_time_us (fst (@fuseMagCal ref_extern ekf_idle_gap))
     = 26000000%Z.
Proof.
  split; [vm_compute; reflexivity|].
  pose proof (@C4_stale_filter_is_reset ref_extern ekf_idle_gap) as H.
  cbv zeta in H. destruct H as (_ & _ & Hx & Ht).
  - vm_compute; reflexivity.
  - right. vm_compute; reflexivity.
  - split; [exact Hx | exact Ht].
Defined.

(** C5.  The claim fails for the limits when a corrected state is not a
    number.  With a zero covariance matrix and no magnetometer noise the
    innovation variance of the X axis is 0, which is not less than the
    noise variance 0, so the axis is fused; the inverse of the variance is
    infinite, every gain is 0 times infinity, a NaN, and so is every
    corrected state.  [constrain] returns a NaN as it is, and a NaN is not
    inside [-0.5, 0.5].  The same happens with the prior covariance and
    finite gains (0.990099, 0, 0, 0) when the X component of the
    magnetometer reading is a NaN: the innovation is a NaN, a gain times it
    is a NaN also for a gain of 0, the three axes are fused without fault
    and the call ends with four states that are not numbers. *)
Lemma C5_nan_state_counterexample :
  (R_MAG (@loop_locals ref_extern ekf_zero_variance) = S754_zero false
   /\ mag_innov_var (@loop_locals ref_extern ekf_zero_variance) 0
                    (@loop_entry ref_extern ekf_zero_variance) = S754_zero false
   /\ fuse_axis (@loop_locals ref_extern ekf_zero_variance) 0
                (enter_loop (@loop_entry ref_extern ekf_zero_variance))
      = Continue zero_variance_after_X
   /\ mag_bias (_mag_cal_states (ls_ekf zero_variance_after_X))
      = mk3 S754_nan S754_nan S754_nan
   /\ fle (fneg f_0_5)
          (get3 (mag_bias (_mag_cal_states (ls_ekf zero_variance_after_X))) 0)
      = false
   /\ fle (get3 (mag_bias (_mag_cal_states (ls_ekf zero_variance_after_X))) 0)
          f_0_5
      = false)
  /\ (Kfusion_of (@loop_locals ref_extern ekf_nan_reading) 0
                 (@loop_entry ref_extern ekf_nan_reading)
      = mk4 (S754_finite false 16611105 (-24)) f_0 f_0 f_0
      /\ snd (@fuseMagCal ref_extern ekf_nan_reading)
         = [ printf_states S754_nan S754_nan S754_nan S754_nan;
             printf_innov S754_nan (S754_finite false 13421773 (-28))
                          (S754_finite true 10737408 (-29)) ]
      /\ get3 (mag_bias (_mag_cal_states
                           (fst (@fuseMagCal ref_extern ekf_nan_reading)))) 0
         = S754_nan
      /\ fle (fneg f_0_5) S754_nan = false
      /\ fle S754_nan f_0_5 = false).
Proof. vm_compute. repeat split. Qed.

Lemma radians_180_limits : fle (fneg (radians f_180)) (radians f_180) = true.
Proof. vm_compute; reflexivity. Qed.

Lemma bias_limits : fle (fneg f_0_5) f_0_5 = true.
Proof. vm_compute; reflexivity. Qed.

(** C5, amended.  When the axis [index] is fused without fault, each of the
    four states becomes the old state minus its Kalman gain times the
    innovation limited to +-0.5, limited in turn by [constrain]: the
    biases to +-0.5, the yaw offset to +-180 degrees, with no wrapping of
    the angle.  No state is then below its lower limit or above its upper
    limit, whatever the gain and the innovation; and a state that is a
    number (not a NaN) lies inside its interval. *)
Theorem C5_states_corrected_and_limited
  (L : locals) (index : nat) (s s' : loop_state) :
  index < 3 ->
  fuse_axis L index s = Continue s' ->
  let K := Kfusion_of L index (ls_ekf s) in
  let innov :=
    constrain (get3 (mag_obs_predicted L) index
               - get3 (mag (_mag_sample_delayed (ls_ekf s))) index)%f32
              (fneg f_0_5) f_0_5 in
  let x := _mag_cal_states (ls_ekf s) in
  let x' := _mag_cal_states (ls_ekf s') in
  let limit := radians f_180 in
  (forall i : nat, i < 3 ->
     get3 (mag_bias x') i
     = constrain (get3 (mag_bias x) i - get4 K i * innov)%f32
                 (fneg f_0_5) f_0_5)
  /\ yaw_offset x'
     = constrain (yaw_offset x - get4 K 3 * innov)%f32 (fneg limit) limit
  /\ (forall i : nat,
        flt (get3 (mag_bias x') i) (fneg f_0_5) = false
        /\ fgt (get3 (mag_bias x') i) f_0_5 = false)
  /\ flt (yaw_offset x') (fneg limit) = false
  /\ fgt (yaw_offset x') limit = false
  /\ (forall i : nat,
        is_nan (get3 (mag_bias x') i) = false ->
        fle (fneg f_0_5) (get3 (mag_bias x') i) = true
        /\ fle (get3 (mag_bias x') i) f_0_5 = true)
  /\ (is_nan (yaw_offset x') = false ->
      fle (fneg limit) (yaw_offset x') = true
      /\ fle (yaw_offset x') limit = true).
Proof.
  intros Hi H. rewrite (fuse_axis_eq L index s Hi) in H. cbv zeta in H.
  destruct (fge (mag_innov_var L index (ls_ekf s)) (R_MAG L)); [|discriminate].
  injection H as <-. cbv zeta.
  cbn [ls_ekf set_cal_states _mag_cal_states].
  unfold limited_innovation, innovation_of.
  set (K := Kfusion_of L index (ls_ekf s)).
  set (innov := constrain _ (fneg f_0_5) f_0_5).
  destruct (_mag_cal_states (ls_ekf s)) as [[b0 b1 b2] yaw].
  unfold correct_states.
  cbn [mag_bias yaw_offset get3 set3 e0 e1 e2].
  split; [intros [|[|[|i]]] Hlt; try reflexivity; lia|].
  split; [reflexivity|].
  split.
  { intros [|[|[|i]]]; cbn [get3 e0 e1 e2];
      (split; [apply constrain_not_below | apply constrain_not_above]);
      exact bias_limits. }
  split; [apply constrain_not_below; exact radians_180_limits|].
  split; [apply constrain_not_above; exact radians_180_limits|].
  split.
  { intros [|[|[|i]]]; cbn [get3 e0 e1 e2]; intros Hnan;
      apply (constrain_within _ _ _ bias_limits);
      rewrite <- Hnan; symmetry; apply (constrain_nan _ _ _ bias_limits). }
  intros Hnan. apply (constrain_within _ _ _ radians_180_limits).
  rewrite <- Hnan; symmetry; apply (constrain_nan _ _ _ radians_180_limits).
Qed.

(** The X axis of the turning vehicle: the innovation is -0.1 and the X
    bias becomes 0.0990099. *)
Lemma C5_turning_X_witness :
  fuse_axis (@loop_locals ref_extern ekf_turning) 0
            (enter_loop (@loop_entry ref_extern ekf_turning))
  = Continue turning_after_X
  /\ get3 (mag_bias (_mag_cal_states (ls_ekf turning_after_X))) 0
     = S754_finite false 13288885 (-27)
  /\ fle (fneg f_0_5)
         (get3 (mag_bias (_mag_cal_states (ls_ekf turning_after_X))) 0) = true
  /\ fle (get3 (mag_bias (_mag_cal_states (ls_ekf turning_after_X))) 0) f_0_5
     = true.
Proof.
  assert (H : fuse_axis (@loop_locals ref_extern ekf_turning) 0
                        (enter_loop (@loop_entry ref_extern ekf_turning))
              = Continue turning_after_X) by (vm_compute; reflexivity).
  split; [exact H|]. split; [reflexivity|].
  pose proof (C5_states_corrected_and_limited
                (@loop_locals ref_extern ekf_turning) 0
                (enter_loop (@loop_entry ref_extern ekf_turning))
                turning_after_X (Nat.lt_0_succ 2) H) as H5.
  cbv zeta in H5. destruct H5 as (_ & _ & _ & _ & _ & Hin & _).
  exact (Hin 0 eq_refl).
Defined.

(** ** What the loop leaves alone *)

Lemma finish_frame (L : locals) (axes : list nat) (s : loop_state) :
  let after := fst (finish (fuse_axes L axes s)) in
  _mag_bias_ekf_active after = _mag_bias_ekf_active (ls_ekf s)
  /\ _mag_bias_ekf_yaw_last after = _mag_bias_ekf_yaw_last (ls_ekf s).
Proof.
  cbv zeta. pose proof (fuse_axes_frame L axes s) as Hframe.
  destruct (fuse_axes L axes s) as [s'|ekf']; cbn [finish fst];
    rewrite Hframe; split; reflexivity.
Qed.

(** C6.  The claim fails for the reference yaw: a call that passes the
    throttle stores the yaw before it looks at the time stamps and before
    it fuses anything.  On first use the filter is reset and nothing is
    fused, and with a negative variance the fusion is given up at the X
    axis; both calls move the reference yaw from 1 to 0. *)
Lemma C6_reference_yaw_counterexample :
  (_mag_bias_ekf_yaw_last ekf_first_use = f_1
   /\ @fuseMagCal ref_extern ekf_first_use
      = (reset_filter (@after_gates ref_extern ekf_first_use), [])
   /\ _mag_bias_ekf_yaw_last (fst (@fuseMagCal ref_extern ekf_first_use)) = f_0)
  /\ (_mag_bias_ekf_yaw_last ekf_fault_X = f_1
      /\ snd (@fuseMagCal ref_extern ekf_fault_X) = [ECL_ERR_covariance_reset]
      /\ _mag_cal_states (fst (@fuseMagCal ref_extern ekf_fault_X))
         = _mag_cal_states ekf_fault_X
      /\ _mag_bias_ekf_yaw_last (fst (@fuseMagCal ref_extern ekf_fault_X)) = f_0).
Proof. vm_compute. repeat split. Qed.

(** C6, amended.  A call with a valid time interval that is not suppressed
    takes the yaw of the attitude (the third Euler angle of the
    quaternion), subtracts the reference yaw, and brings the difference
    back by one turn when it is above pi or below -pi.  When the absolute
    difference is less than 10 degrees the call skips and the reference yaw
    stays.  Otherwise the call goes on and the yaw becomes the reference
    yaw, whether the call then resets the filter, gives the fusion up at a
    fault, or completes it. *)
Theorem C6_yaw_throttle
  {E : Extern} (ekf : Ekf) :
  dt_valid ekf = true ->
  suppressed (update_active ekf) = false ->
  let yaw := euler321_yaw (quat_nominal (_state ekf)) in
  let d := (yaw - _mag_bias_ekf_yaw_last ekf)%f32 in
  let wrapped :=
    if fgt d M_PI_F then (d - M_TWOPI_F)%f32
    else if flt d (fneg M_PI_F) then (d + M_TWOPI_F)%f32
    else d in
  let after := fst (fuseMagCal ekf) in
  (flt (fabsf wrapped) (radians f_10) = true ->
   fuseMagCal ekf = (update_active ekf, [])
   /\ _mag_bias_ekf_yaw_last after = _mag_bias_ekf_yaw_last ekf)
  /\ (flt (fabsf wrapped) (radians f_10) = false ->
      skips ekf = false
      /\ fuseMagCal ekf
         = (if stale (after_gates ekf)
            then (reset_filter (after_gates ekf), [])
            else finish (fuse_axes (loop_locals ekf) [0; 1; 2]
                                   (enter_loop (loop_entry ekf))))
      /\ _mag_bias_ekf_yaw_last after = yaw).
Proof.
  intros Hdt Hsup. cbv zeta.
  assert (Hthr : throttled (update_active ekf)
                 = flt (fabsf
                          (let d := (euler321_yaw (quat_nominal (_state ekf))
                                     - _mag_bias_ekf_yaw_last ekf)%f32 in
                           if fgt d M_PI_F then (d - M_TWOPI_F)%f32
                           else if flt d (fneg M_PI_F) then (d + M_TWOPI_F)%f32
                           else d))
                       (radians f_10)).
  { rewrite (update_active_eq ekf). reflexivity. }
  cbv zeta in Hthr. rewrite <- Hthr. split; intros Ht.
  - assert (Hskip : skips ekf = true).
    { unfold skips. rewrite Ht. apply orb_true_r. }
    rewrite (fuseMagCal_skips ekf Hskip), Hdt. cbn [fst].
    split; [reflexivity|]. rewrite (update_active_eq ekf). reflexivity.
  - assert (Hskip : skips ekf = false).
    { unfold skips. rewrite Hdt, Hsup, Ht. reflexivity. }
    split; [exact Hskip|].
    destruct (stale (after_gates ekf)) eqn:Hst.
    + rewrite (fuseMagCal_reset ekf Hskip Hst). split; [reflexivity|].
      cbn [fst]. rewrite after_gates_eq. reflexivity.
    + assert (Hf : fuses ekf = true).
      { unfold fuses. rewrite Hskip, Hst. reflexivity. }
      rewrite (fuseMagCal_fuses ekf Hf). split; [reflexivity|].
      destruct (finish_frame (loop_locals ekf) [0; 1; 2]
                             (enter_loop (loop_entry ekf))) as [_ Hyaw].
      rewrite Hyaw. unfold loop_entry. rewrite after_gates_eq. reflexivity.
Qed.

(** The turning vehicle has moved one radian since the reference yaw. *)
Lemma C6_turning_witness :
  @skips ref_extern ekf_turning = false
  /\ _mag_bias_ekf_yaw_last (fst (@fuseMagCal ref_extern ekf_turning)) = f_0.
Proof.
  pose proof (@C6_yaw_throttle ref_extern ekf_turning) as H.
  cbv zeta in H. destruct H as [_ H].
  - vm_compute; reflexivity.
  - vm_compute; reflexivity.
  - destruct H as (Hs & _ & Hy).
    + vm_compute; reflexivity.
    + split; [exact Hs|]. rewrite Hy. vm_compute; reflexivity.
Defined.

(** The activity flag after a call with a valid time interval is the one
    the tests of lines 63-67 leave. *)
Lemma fuseMagCal_active {E : Extern} (ekf : Ekf) :
  dt_valid ekf = true ->
  _mag_bias_ekf_active (fst (fuseMagCal ekf))
  = _mag_bias_ekf_active (update_active ekf).
Proof.
  intros Hdt. destruct (skips ekf) eqn:Hskip.
  - rewrite (fuseMagCal_skips ekf Hskip), Hdt. reflexivity.
  - destruct (stale (after_gates ekf)) eqn:Hst.
    + rewrite (fuseMagCal_reset ekf Hskip Hst). cbn [fst].
      rewrite after_gates_eq. reflexivity.
    + assert (Hf : fuses ekf = true).
      { unfold fuses. rewrite Hskip, Hst. reflexivity. }
      rewrite (fuseMagCal_fuses ekf Hf).
      destruct (finish_frame (loop_locals ekf) [0; 1; 2]
                             (enter_loop (loop_entry ekf))) as [Hact _].
      rewrite Hact. unfold loop_entry. rewrite after_gates_eq. reflexivity.
Qed.

(** C7.  After a call with a valid time interval (above 0.0001) the
    activity flag is: true, when it was false, the absolute yaw rate is
    above 10 degrees per second and the tilt is ok; false, when it was true
    and the absolute yaw rate is below 5 degrees per second or the tilt is
    not ok; and what it was in every other case.  The yaw rate is the third
    row of the body to earth rotation times the corrected delta angle,
    divided by the time interval, and the tilt is ok when the entry (2,2)
    of that rotation is above cos(45 degrees). *)
Theorem C7_activity_hysteresis
  {E : Extern} (ekf : Ekf) :
  dt_valid ekf = true ->
  let R := _R_to_earth ekf in
  let d := vsub (delta_ang (_imu_sample_delayed ekf)) (gyro_bias (_state ekf)) in
  let rate :=
    ((get3 (get3 R 2) 0 * get3 d 0 + get3 (get3 R 2) 1 * get3 d 1
      + get3 (get3 R 2) 2 * get3 d 2)
     / delta_ang_dt (_imu_sample_delayed ekf))%f32 in
  let tilt := fgt (get3 (get3 R 2) 2) (cosf (radians f_45)) in
  let fast := fgt (fabsf rate) (radians f_10) in
  let slow := flt (fabsf rate) (radians f_5) in
  let was := _mag_bias_ekf_active ekf in
  let now := _mag_bias_ekf_active (fst (fuseMagCal ekf)) in
  (was = false /\ fast = true /\ tilt = true -> now = true)
  /\ (was = true /\ (slow = true \/ tilt = false) -> now = false)
  /\ (~ (was = false /\ fast = true /\ tilt = true) ->
      ~ (was = true /\ (slow = true \/ tilt = false)) ->
      now = was).
Proof.
  intros Hdt. cbv zeta. rewrite (fuseMagCal_active ekf Hdt).
  unfold update_active, tilt_ok, yaw_rate, corrected_delta_ang.
  set (tilt := fgt _ (cosf (radians f_45))).
  set (fast := fgt (fabsf _) (radians f_10)).
  set (slow := flt (fabsf _) (radians f_5)).
  destruct (_mag_bias_ekf_active ekf) eqn:Hwas, fast, slow, tilt; cbn.
  all: split; [|split].
  all: try (intros (H1 & H2 & H3); try reflexivity; discriminate).
  all: try (intros (H1 & [H2|H2]); try reflexivity; discriminate).
  all: intros HA HB; try reflexivity; try exact Hwas; exfalso.
  all: first [ apply HA; repeat split; reflexivity
             | apply HB; split; [reflexivity|];
               first [left; reflexivity | right; reflexivity] ].
Qed.

(** The vehicle that does not turn: the active filter is switched off. *)
Lemma C7_not_turning_witness :
  _mag_bias_ekf_active ekf_not_turning = true
  /\ _mag_bias_ekf_active (fst (@fuseMagCal ref_extern ekf_not_turning)) = false.
Proof.
  split; [reflexivity|].
  pose proof (@C7_activity_hysteresis ref_extern ekf_not_turning) as H.
  cbv zeta in H. destruct H as (_ & H & _).
  - vm_compute; reflexivity.
  - apply H. split; [reflexivity|]. left. vm_compute; reflexivity.
Defined.

Lemma mset_3_3_other (P : Matrix4) (x : float) (i j : nat) :
  i < 3 \/ j < 3 -> mget (mset P 3 3 x) i j = mget P i j.
Proof.
  intros Hij. destruct P as [[] [] [] []].
  destruct i as [|[|[|i]]]; destruct j as [|[|[|j]]];
    try reflexivity; lia.
Qed.

(** C8.  In a call that passes the gates and does not reset the filter,
    the process noise step adds (dt * radians(0.5))^2 to the yaw offset
    variance [P[3][3]], where [dt] is the time of the sample minus the time
    of the last fusion in seconds, and changes nothing else: every other
    entry of the covariance and the four states are as the call found
    them.  The loop over the axes then starts from that object. *)
Theorem C8_process_noise_on_yaw_variance_only
  {E : Extern} (ekf : Ekf) :
  fuses ekf = true ->
  let before := after_gates ekf in
  let after := loop_entry ekf in
  let dt :=
    (f_1E_6 * of_Z ((time_us (_imu_sample_delayed ekf)
                     - _mag_bias_ekf_time_us ekf) mod 2 ^ 64))%f32 in
  let noise := (dt * radians f_0_5 * (dt * radians f_0_5))%f32 in
  fuseMagCal ekf
  = finish (fuse_axes (compute_locals after) [0; 1; 2] (enter_loop after))
  /\ mget (_mag_cov_mat after) 3 3 = (mget (_mag_cov_mat ekf) 3 3 + noise)%f32
  /\ (forall i j : nat, i < 3 \/ j < 3 ->
        mget (_mag_cov_mat after) i j = mget (_mag_cov_mat ekf) i j)
  /\ _mag_cal_states after = _mag_cal_states ekf
  /\ after = set_cov_mat before (_mag_cov_mat after).
Proof.
  intros Hf. cbv zeta. split; [exact (fuseMagCal_fuses ekf Hf)|].
  unfold loop_entry. rewrite time_delta_sec_after_gates, after_gates_eq.
  unfold add_process_noise, yaw_process_noise_variance, time_delta_sec.
  cbn [set_cov_mat set_yaw_last set_active _mag_cov_mat _mag_cal_states].
  split.
  { destruct (_mag_cov_mat ekf) as [[] [] [] []]. reflexivity. }
  split; [intros i j Hij; apply mset_3_3_other; exact Hij|].
  split; reflexivity.
Qed.

(** The turning vehicle one second after the last fusion: the variance
    goes from 1 to 1.0000762. *)
Lemma C8_turning_witness :
  mget (_mag_cov_mat (@loop_entry ref_extern ekf_turning)) 3 3
  = S754_finite false 8389247 (-23)
  /\ mget (_mag_cov_mat (@loop_entry ref_extern ekf_turning)) 0 0
     = mget (_mag_cov_mat ekf_turning) 0 0.
Proof.
  pose proof (@C8_process_noise_on_yaw_variance_only ref_extern ekf_turning) as H.
  cbv zeta in H. destruct H as (_ & H33 & Hother & _).
  - vm_compute; reflexivity.
  - split; [rewrite H33; vm_compute; reflexivity|].
    apply Hother. left. apply Nat.lt_0_succ.
Defined.

(** C9.  The claim fails for the Y and Z axes when an earlier axis has
    moved the states: the prediction is made once, before the loop, and is
    not made again between the axes.  Here the X bias and the Y bias are
    correlated, so the X axis moves the Y bias from 0 to 0.0396; the
    measurement model at the states of the Y axis gives 0.0396 for Y, but the
    Y axis takes its innovation 0.05 from the prediction 0 made before the
    loop. *)
Lemma C9_stale_prediction_counterexample :
  fuse_axis (@loop_locals ref_extern ekf_correlated) 0
            (enter_loop (@loop_entry ref_extern ekf_correlated))
  = Continue correlated_after_X
  /\ get3 (mag_bias (_mag_cal_states (ls_ekf correlated_after_X))) 1
     = S754_finite false 10631108 (-28)
  /\ get3 (@h_of_state ref_extern
             (quat_nominal (_state (ls_ekf correlated_after_X)))
             (_mag_cal_states (ls_ekf correlated_after_X))) 1
     = S754_finite false 10631108 (-28)
  /\ get3 (mag_obs_predicted (@loop_locals ref_extern ekf_correlated)) 1
     = S754_zero false
  /\ get3 (mag (_mag_sample_delayed ekf_correlated)) 1
     = S754_finite true 13421773 (-28)
  /\ innovation_of (@loop_locals ref_extern ekf_correlated) 1
                   (ls_ekf correlated_after_X)
     = S754_finite false 13421773 (-28)
  /\ snd (@fuseMagCal ref_extern ekf_correlated)
     = [ printf_states (S754_finite false 13257675 (-27))
                       (S754_finite true 10532220 (-30))
                       (S754_finite false 10631097 (-29)) (S754_zero false);
         printf_innov (S754_finite true 13421774 (-27))
                      (S754_finite false 13421773 (-28))
                      (S754_finite true 10737408 (-29)) ].
Proof. vm_compute. repeat split. Qed.

(** C9, amended.  In a call that gets to the loop, the predicted
    measurement is made once, before the loop, from the calibration states
    the call finds: it is the earth field [getGeoMagNED], rotated by the
    earth to body rotation [quat_to_invrotmat] of the attitude quaternion
    times the yaw quaternion (cos yaw_offset, 0, 0, sin yaw_offset), plus the
    bias, h(state) = R(yawOffset) * earthField + bias.  Every axis takes its
    innovation from that prediction, whatever the states have become by
    then: the innovation fused is the limited difference of the component
    of the prediction and of the measurement.  The three bias entries of the
    Jacobian row of an axis are 1 for the axis and 0 for the two others. *)
Theorem C9_prediction_made_once_and_bias_jacobian
  {E : Extern} (ekf : Ekf) (index : nat) :
  fuses ekf = true ->
  index < 3 ->
  let L := loop_locals ekf in
  let x := _mag_cal_states ekf in
  let quat_yaw := mk4 (cosf (yaw_offset x)) f_0 f_0 (sinf (yaw_offset x)) in
  let Teb := quat_to_invrotmat (quat_mul (quat_nominal (_state ekf)) quat_yaw) in
  let h := vadd (mat_vec Teb getGeoMagNED) (mag_bias x) in
  mag_obs_predicted L = h
  /\ h = h_of_state (quat_nominal (_state ekf)) x
  /\ (forall s s' : loop_state,
        fuse_axis L index s = Continue s' ->
        get3 (ls_innovation s') index
        = constrain (get3 h index
                     - get3 (mag (_mag_sample_delayed (ls_ekf s))) index)%f32
                    (fneg f_0_5) f_0_5)
  /\ (forall i : nat, i < 3 ->
        get4 (H_MAG_of L index) i = if Nat.eqb i index then f_1 else f_0).
Proof.
  intros Hf Hi. cbv zeta.
  assert (Hpred :
    mag_obs_predicted (loop_locals ekf)
    = vadd (mat_vec
              (quat_to_invrotmat
                 (quat_mul (quat_nominal (_state ekf))
                    (mk4 (cosf (yaw_offset (_mag_cal_states ekf))) f_0 f_0
                         (sinf (yaw_offset (_mag_cal_states ekf))))))
              getGeoMagNED)
           (mag_bias (_mag_cal_states ekf))).
  { unfold loop_locals, loop_entry. rewrite after_gates_eq. reflexivity. }
  split; [exact Hpred|]. split; [reflexivity|]. split.
  - intros s s' H. rewrite (fuse_axis_eq (loop_locals ekf) index s Hi) in H.
    cbv zeta in H.
    destruct (fge (mag_innov_var (loop_locals ekf) index (ls_ekf s))
                  (R_MAG (loop_locals ekf))); [|discriminate].
    injection H as <-. cbn [ls_innovation].
    unfold limited_innovation, innovation_of. rewrite Hpred.
    destruct (ls_innovation s) as [i0 i1 i2].
    destruct index as [|[|[|index]]]; [reflexivity | reflexivity | reflexivity | lia].
  - intros i Hlt.
    destruct index as [|[|[|index]]]; [| | | lia];
      (destruct i as [|[|[|i]]]; [reflexivity | reflexivity | reflexivity | lia]).
Qed.

(** The Y axis of the turning vehicle: the prediction is the earth field
    itself, and the Jacobian row selects the Y bias. *)
Lemma C9_turning_Y_witness :
  mag_obs_predicted (@loop_locals ref_extern ekf_turning) = ref_mag_EF_value
  /\ get4 (H_MAG_of (@loop_locals ref_extern ekf_turning) 1) 0 = f_0
  /\ get4 (H_MAG_of (@loop_locals ref_extern ekf_turning) 1) 1 = f_1
  /\ get4 (H_MAG_of (@loop_locals ref_extern ekf_turning) 1) 2 = f_0.
Proof.
  pose proof (@C9_prediction_made_once_and_bias_jacobian
                ref_extern ekf_turning 1) as H.
  cbv zeta in H. destruct H as (Hpred & _ & _ & HH).
  - vm_compute; reflexivity.
  - lia.
  - split; [rewrite Hpred; vm_compute; reflexivity|].
    split; [exact (HH 0 (Nat.lt_0_succ 2))|].
    split; [apply (HH 1); lia|].
    exact (HH 2 (Nat.lt_succ_diag_r 2)).
Defined.

(** * Further properties of [Ekf::fuseMagCal] *)

(** ** The four ways through a call *)

Section Calls.

Context {E : Extern}.

Lemma fuseMagCal_cases (ekf : Ekf) :
  fuseMagCal ekf =
  if skips ekf then (if dt_valid ekf then update_active ekf else ekf, [])
  else if stale (after_gates ekf) then (reset_filter (after_gates ekf), [])
  else finish (fuse_axes (loop_locals ekf) [0; 1; 2]
                         (enter_loop (loop_entry ekf))).
Proof.
  destruct (skips ekf) eqn:Hskip.
  - apply fuseMagCal_skips. exact Hskip.
  - destruct (stale (after_gates ekf)) eqn:Hst.
    + apply fuseMagCal_reset; assumption.
    + apply fuseMagCal_fuses. unfold fuses. rewrite Hskip, Hst. reflexivity.
Qed.

Lemma update_active_inhibit (ekf : Ekf) :
  _mag_use_inhibit (update_active ekf) = _mag_use_inhibit ekf.
Proof. rewrite (update_active_eq ekf). reflexivity. Qed.

(** A [return] from the loop leaves the prior covariance. *)
Lemma fuse_axes_return_cov (L : locals) (axes : list nat) (s : loop_state) :
  forall ekf', fuse_axes L axes s = Return ekf' -> _mag_cov_mat ekf' = prior_cov.
Proof.
  revert s. induction axes as [|index rest IH]; intros s ekf'; cbn [fuse_axes].
  - discriminate.
  - destruct (fuse_axis L index s) as [s1|ekf1] eqn:Haxis.
    + apply IH.
    + intros H. injection H as <-. unfold fuse_axis in Haxis.
      destruct (innov_var_loop _ _ _) as [PH v].
      destruct (fge v (R_MAG L)); [discriminate|].
      injection Haxis as <-. reflexivity.
Qed.

(** What the loop and the lines after it write, seen from the object at
    the start of the loop. *)
Lemma finish_writes (L : locals) (axes : list nat) (s : loop_state) :
  let r := finish (fuse_axes L axes s) in
  changes_filter_only (ls_ekf s) (fst r)
  \/ changes_filter_only
       (set_time_us (ls_ekf s) (time_us (_imu_sample_delayed (ls_ekf s))))
       (fst r).
Proof.
  cbv zeta. pose proof (fuse_axes_frame L axes s) as Hframe.
  destruct (fuse_axes L axes s) as [s'|ekf']; cbn [finish fst].
  - right. rewrite Hframe. reflexivity.
  - left. exact Hframe.
Qed.

(** The members a call only reads. *)
Lemma fuseMagCal_reads (ekf : Ekf) :
  let after := fst (fuseMagCal ekf) in
  _imu_sample_delayed after = _imu_sample_delayed ekf
  /\ _mag_sample_delayed after = _mag_sample_delayed ekf
  /\ _state after = _state ekf
  /\ _R_to_earth after = _R_to_earth ekf
  /\ _params after = _params ekf
  /\ _mag_use_inhibit after = _mag_use_inhibit ekf.
Proof.
  cbv zeta. rewrite fuseMagCal_cases.
  destruct (skips ekf).
  - destruct (dt_valid ekf); cbn [fst]; [|repeat split].
    rewrite (update_active_eq ekf). repeat split.
  - destruct (stale (after_gates ekf)).
    + cbn [fst]. rewrite after_gates_eq. repeat split.
    + destruct (finish_writes (loop_locals ekf) [0; 1; 2]
                              (enter_loop (loop_entry ekf))) as [H|H];
        cbv zeta in H; rewrite H; cbn [enter_loop ls_ekf];
        unfold loop_entry; rewrite after_gates_eq; repeat split.
Qed.

(** X1.  A call writes at most five members: the activity flag, the
    reference yaw, the time stamp, the covariance matrix and the
    calibration states.  The two samples, the state of the main filter, the
    rotation matrix, the parameters and the inhibit flag are after the call
    what they were before it, on every path. *)
Theorem X1_writes_five_members_only (ekf : Ekf) :
  let after := fst (fuseMagCal ekf) in
  after =
  set_cal_states
    (set_cov_mat
       (set_time_us
          (set_yaw_last (set_active ekf (_mag_bias_ekf_active after))
                        (_mag_bias_ekf_yaw_last after))
          (_mag_bias_ekf_time_us after))
       (_mag_cov_mat after))
    (_mag_cal_states after).
Proof.
  cbv zeta. destruct (fuseMagCal_reads ekf) as (H1 & H2 & H3 & H4 & H5 & H6).
  cbv zeta in *. destruct (fst (fuseMagCal ekf)). cbn in *.
  subst. reflexivity.
Qed.

(** X2.  What a call prints tells how far it got.  A call that returns at
    one of the gates prints nothing and keeps the time stamp and the
    reference yaw.  Every other call stores the yaw of the attitude as the
    reference yaw; it then either resets the filter, printing nothing and
    storing the sample time, or gives up at a badly conditioned axis,
    printing the error line, leaving the prior covariance and keeping the
    old time stamp, or fuses the three axes, printing the two debug lines
    and storing the sample time. *)
Theorem X2_output_tells_the_path (ekf : Ekf) :
  let after := fst (fuseMagCal ekf) in
  let out := snd (fuseMagCal ekf) in
  let now := time_us (_imu_sample_delayed ekf) in
  let yaw := euler321_yaw (quat_nominal (_state ekf)) in
  if skips ekf then
    out = []
    /\ _mag_bias_ekf_time_us after = _mag_bias_ekf_time_us ekf
    /\ _mag_bias_ekf_yaw_last after = _mag_bias_ekf_yaw_last ekf
  else
    _mag_bias_ekf_yaw_last after = yaw
    /\ if stale (after_gates ekf) then
         out = [] /\ _mag_bias_ekf_time_us after = now
       else
         (out = [ECL_ERR_covariance_reset]
          /\ _mag_bias_ekf_time_us after = _mag_bias_ekf_time_us ekf
          /\ _mag_cov_mat after = prior_cov)
         \/ (exists b0 b1 b2 y i0 i1 i2,
               out = [printf_states b0 b1 b2 y; printf_innov i0 i1 i2]
               /\ _mag_bias_ekf_time_us after = now).
Proof.
  cbv zeta. rewrite fuseMagCal_cases.
  destruct (skips ekf).
  - cbn [fst snd]. split; [reflexivity|].
    destruct (dt_valid ekf); [|split; reflexivity].
    rewrite (update_active_eq ekf). split; reflexivity.
  - destruct (stale (after_gates ekf)).
    + cbn [fst snd]. rewrite after_gates_eq. repeat split.
    + pose proof (fuse_axes_frame (loop_locals ekf) [0; 1; 2]
                                  (enter_loop (loop_entry ekf))) as Hframe.
      pose proof (fuse_axes_return_cov (loop_locals ekf) [0; 1; 2]
                                       (enter_loop (loop_entry ekf))) as Hcov.
      destruct (fuse_axes (loop_locals ekf) [0; 1; 2]
                          (enter_loop (loop_entry ekf))) as [s'|ekf'];
        cbn [finish fst snd]; rewrite Hframe;
        cbn [enter_loop ls_ekf]; unfold loop_entry; rewrite after_gates_eq.
      * split; [reflexivity|]. right. unfold replay_debug.
        do 7 eexists. split; reflexivity.
      * split; [reflexivity|]. left. repeat split.
        cbn [set_cal_states set_cov_mat _mag_cov_mat].
        apply Hcov. reflexivity.
Qed.

(** X3.  While the main filter uses the magnetometer (the inhibit flag is
    off) a call leaves the calibration alone: states, covariance, reference
    yaw and time stamp stay as they are and nothing is printed. *)
Theorem X3_no_calibration_while_mag_in_use (ekf : Ekf) :
  _mag_use_inhibit ekf = false ->
  let after := fst (fuseMagCal ekf) in
  snd (fuseMagCal ekf) = []
  /\ _mag_cal_states after = _mag_cal_states ekf
  /\ _mag_cov_mat after = _mag_cov_mat ekf
  /\ _mag_bias_ekf_yaw_last after = _mag_bias_ekf_yaw_last ekf
  /\ _mag_bias_ekf_time_us after = _mag_bias_ekf_time_us ekf.
Proof.
  intros Hin. cbv zeta.
  assert (Hskip : skips ekf = true).
  { unfold skips, suppressed. rewrite update_active_inhibit, Hin.
    cbn [negb orb]. rewrite orb_true_r. reflexivity. }
  rewrite (fuseMagCal_skips ekf Hskip). cbn [fst snd].
  destruct (dt_valid ekf); [|repeat split].
  rewrite (update_active_eq ekf). repeat split.
Qed.

End Calls.

Lemma X3_mag_in_use_witness :
  snd (@fuseMagCal ref_extern (set_inhibit_off ekf_turning)) = []
  /\ _mag_cov_mat (fst (@fuseMagCal ref_extern (set_inhibit_off ekf_turning)))
     = prior_cov.
Proof.
  destruct (@X3_no_calibration_while_mag_in_use
              ref_extern (set_inhibit_off ekf_turning) eq_refl)
    as (Hp & _ & Hc & _).
  split; [exact Hp | exact Hc].
Defined.

(** ** Calling again on the same samples *)

Lemma shl_align_same (m : positive) (e : Z) : shl_align m e e = (m, e).
Proof. unfold shl_align. rewrite Z.sub_diag. reflexivity. Qed.

(** [x - x] is [+0] for every number [x], and a NaN for the others. *)
Lemma fsub_same (x : float) :
  fsub x x = if is_number x then S754_zero false else S754_nan.
Proof.
  destruct x as [s|s| |s m e]; try (destruct s; reflexivity); try reflexivity.
  unfold fsub, SFsub. rewrite Z.min_id, shl_align_same. cbn [fst is_number].
  rewrite Z.sub_diag. reflexivity.
Qed.

Lemma fsub_not_number_l (x y : float) :
  is_number x = false -> is_number (fsub x y) = false.
Proof.
  destruct x as [s|s| |s m e]; try discriminate; intros _.
  - destruct y as [sy|sy| |sy my ey]; try reflexivity.
    destruct s, sy; reflexivity.
  - destruct y; reflexivity.
Qed.

(** A difference that is not a number is not below any angle in absolute
    value, also after one turn has been added or taken away. *)
Lemma not_number_not_small (d a b c : float) :
  is_number d = false -> is_number b = true ->
  flt (fabsf (if fgt d a then fsub d b
              else if flt d (fneg a) then fadd d b else d)) c = false.
Proof.
  destruct d as [s|s| |s m e]; try discriminate; intros _ Hb.
  - destruct (fgt (S754_infinity s) a), (flt (S754_infinity s) (fneg a));
      destruct b as [sb|sb| |sb mb eb]; try discriminate;
      destruct c as [sc|sc| |sc mc ec]; try reflexivity;
      destruct sc; reflexivity.
  - destruct (fgt S754_nan a), (flt S754_nan (fneg a));
      destruct b as [sb|sb| |sb mb eb]; try discriminate;
      destruct c; reflexivity.
Qed.

(** A value above [radians 10] is not below [radians 5]. *)
Lemma above_10_not_below_5 (x : float) :
  fgt x (radians f_10) = true -> flt x (radians f_5) = false.
Proof.
  assert (H10 : exists m, radians f_10 = S754_finite false m (-26))
    by (eexists; vm_compute; reflexivity).
  assert (H5 : exists m, radians f_5 = S754_finite false m (-27))
    by (eexists; vm_compute; reflexivity).
  destruct H10 as [m10 ->], H5 as [m5 ->].
  unfold fgt, flt, SFltb.
  destruct x as [s|s| |s m e];
    try (destruct s; cbn; (reflexivity || discriminate)); try reflexivity.
  destruct s; [discriminate|].
  cbn [SFcompare].
  destruct (Z.compare_spec (-26) e) as [He|He|He];
    destruct (Z.compare_spec e (-27)) as [He'|He'|He'];
    try lia; try reflexivity; try discriminate.
Qed.

Section Again.

Context {E : Extern}.

(** The activity flag of an object that has been through the hysteresis on
    the same sample stays as it is. *)
Lemma update_active_settled (a ekf : Ekf) :
  yaw_rate a = yaw_rate ekf -> tilt_ok a = tilt_ok ekf ->
  _mag_bias_ekf_active a = _mag_bias_ekf_active (update_active ekf) ->
  update_active a = a.
Proof.
  intros Hrate Htilt. unfold update_active. rewrite Hrate, Htilt.
  pose proof (above_10_not_below_5 (fabsf (yaw_rate ekf))) as Hband.
  destruct (_mag_bias_ekf_active a),
           (_mag_bias_ekf_active ekf) eqn:Hekf,
           (fgt (fabsf (yaw_rate ekf)) (radians f_10)),
           (flt (fabsf (yaw_rate ekf)) (radians f_5)),
           (tilt_ok ekf);
    cbn [negb andb orb set_active _mag_bias_ekf_active];
    try rewrite Hekf; intros Hflag; try reflexivity; try discriminate;
    specialize (Hband eq_refl); discriminate.
Qed.

(** The object after a call reads the same samples, state and rotation. *)
Lemma fuseMagCal_same_sample (ekf : Ekf) :
  let after := fst (fuseMagCal ekf) in
  dt_valid after = dt_valid ekf
  /\ yaw_rate after = yaw_rate ekf
  /\ tilt_ok after = tilt_ok ekf
  /\ euler321_2 after = euler321_2 ekf.
Proof.
  cbv zeta. unfold dt_valid, yaw_rate, tilt_ok, euler321_2, corrected_delta_ang.
  destruct (fuseMagCal_reads ekf) as (-> & _ & -> & -> & _).
  repeat split.
Qed.

(** A call that gets past the gates stores the yaw of the attitude. *)
Lemma fuseMagCal_yaw_last (ekf : Ekf) :
  skips ekf = false ->
  _mag_bias_ekf_yaw_last (fst (fuseMagCal ekf)) = euler321_2 ekf.
Proof.
  intros Hskip. rewrite fuseMagCal_cases, Hskip.
  destruct (stale (after_gates ekf)).
  - cbn [fst]. rewrite after_gates_eq. reflexivity.
  - destruct (finish_frame (loop_locals ekf) [0; 1; 2]
                           (enter_loop (loop_entry ekf))) as [_ Hlast].
    cbv zeta in Hlast. rewrite Hlast. cbn [enter_loop ls_ekf].
    unfold loop_entry. rewrite after_gates_eq. reflexivity.
Qed.

(** With the reference yaw at the yaw of the attitude, and that yaw a
    number, the throttle of line 88 holds. *)
Lemma throttled_at_reference (ekf : Ekf) :
  _mag_bias_ekf_yaw_last ekf = euler321_2 ekf ->
  is_number (euler321_2 ekf) = true ->
  throttled ekf = true.
Proof.
  intros Hlast Hnum. unfold throttled, yaw_delta. rewrite Hlast, fsub_same, Hnum.
  vm_compute. reflexivity.
Qed.

(** X4.  A call that finds the filter inactive on a vehicle that does not
    turn fast enough or is tilted too far, and a call with an invalid time
    step, leave the whole object as it is and print nothing; so does any
    number of such calls in a row. *)
Theorem X4_idle_call_changes_nothing (ekf : Ekf) (n : nat) :
  dt_valid ekf = false
  \/ (_mag_bias_ekf_active ekf = false
      /\ fgt (fabsf (yaw_rate ekf)) (radians f_10) && tilt_ok ekf = false) ->
  fuseMagCal ekf = (ekf, []) /\ call_n n ekf = ekf.
Proof.
  intros Hidle.
  assert (Hcall : fuseMagCal ekf = (ekf, [])).
  { unfold fuseMagCal. destruct (dt_valid ekf); [|reflexivity].
    destruct Hidle as [Hdt|[Hact Hslow]]; [discriminate|].
    assert (Hsame : update_active ekf = ekf).
    { unfold update_active. rewrite Hact. cbn [negb andb].
      rewrite Hslow. reflexivity. }
    cbv zeta. rewrite Hsame. unfold suppressed. rewrite Hact.
    cbn [negb]. rewrite orb_true_r. reflexivity. }
  split; [exact Hcall|].
  induction n as [|n IH]; [reflexivity|].
  cbn [call_n]. rewrite Hcall. exact IH.
Qed.

(** X5.  A second call on the same samples does nothing, provided the yaw
    of the attitude is a number: whatever the first call did, it left the
    activity flag settled and, when it got past the throttle, the reference
    yaw at the yaw of the attitude, so the second call returns at a gate
    with the object as the first call left it.  Any number of calls in a
    row therefore leaves what the first one left. *)
Theorem X5_second_call_on_same_samples (ekf : Ekf) (n : nat) :
  skips ekf = true \/ is_number (euler321_yaw (quat_nominal (_state ekf))) = true ->
  let after := fst (fuseMagCal ekf) in
  fuseMagCal after = (after, []) /\ call_n (S n) ekf = after.
Proof.
  intros Hyaw. cbv zeta.
  assert (Hagain : fuseMagCal (fst (fuseMagCal ekf)) = (fst (fuseMagCal ekf), [])).
  { destruct (fuseMagCal_same_sample ekf)
      as (Hdt & Hrate & Htilt & Heuler). cbv zeta in *.
    destruct (dt_valid ekf) eqn:Hvalid.
    - assert (Hsettled : update_active (fst (fuseMagCal ekf))
                         = fst (fuseMagCal ekf)).
      { apply (update_active_settled _ ekf Hrate Htilt).
        apply fuseMagCal_active. exact Hvalid. }
      assert (Hskip : skips (fst (fuseMagCal ekf)) = true).
      { unfold skips. rewrite Hsettled, Hdt. cbn [negb orb].
        destruct (skips ekf) eqn:Hfirst.
        - rewrite (fuseMagCal_skips ekf Hfirst), Hvalid. cbn [fst].
          unfold skips in Hfirst. rewrite Hvalid in Hfirst. exact Hfirst.
        - destruct Hyaw as [Hyaw|Hyaw]; [discriminate|].
          rewrite throttled_at_reference; [apply orb_true_r| |].
          + rewrite Heuler. apply fuseMagCal_yaw_last. exact Hfirst.
          + rewrite Heuler. exact Hyaw. }
      rewrite (fuseMagCal_skips _ Hskip), Hdt, Hsettled. reflexivity.
    - assert (Hfirst : fuseMagCal ekf = (ekf, [])).
      { unfold fuseMagCal. rewrite Hvalid. reflexivity. }
      rewrite Hfirst. cbn [fst]. exact Hfirst. }
  split; [exact Hagain|].
  cbn [call_n]. induction n as [|n IH]; [reflexivity|].
  cbn [call_n]. rewrite Hagain. exact IH.
Qed.

(** X6.  When the yaw of the attitude is not a number the throttle of line
    88 never holds, whatever the reference yaw: such a call is stopped only
    by the time step and the activity gate. *)
Theorem X6_no_throttle_without_a_yaw (ekf : Ekf) :
  is_number (euler321_yaw (quat_nominal (_state ekf))) = false ->
  throttled ekf = false
  /\ skips ekf = negb (dt_valid ekf) || suppressed (update_active ekf).
Proof.
  intros Hyaw.
  assert (Hthr : forall a, euler321_2 a = euler321_2 ekf -> throttled a = false).
  { intros a Ha. unfold throttled, yaw_delta. rewrite Ha.
    apply not_number_not_small; [|reflexivity].
    apply fsub_not_number_l. exact Hyaw. }
  split; [apply Hthr; reflexivity|].
  unfold skips. rewrite (Hthr (update_active ekf)).
  - apply orb_false_r.
  - rewrite (update_active_eq ekf). reflexivity.
Qed.

End Again.

Lemma X4_parked_witness :
  @fuseMagCal ref_extern ekf_parked = (ekf_parked, [])
  /\ @call_n ref_extern 5 ekf_parked = ekf_parked.
Proof.
  apply (@X4_idle_call_changes_nothing ref_extern ekf_parked 5).
  right. split; vm_compute; reflexivity.
Defined.

Lemma X5_turning_witness :
  @fuseMagCal ref_extern (fst (@fuseMagCal ref_extern ekf_turning))
  = (fst (@fuseMagCal ref_extern ekf_turning), [])
  /\ @call_n ref_extern 3 ekf_turning = fst (@fuseMagCal ref_extern ekf_turning).
Proof.
  apply (@X5_second_call_on_same_samples ref_extern ekf_turning 2).
  right. vm_compute. reflexivity.
Defined.

Lemma X6_nan_attitude_witness :
  @throttled ref_extern ekf_nan_attitude = false
  /\ @skips ref_extern ekf_nan_attitude = false.
Proof.
  destruct (@X6_no_throttle_without_a_yaw ref_extern ekf_nan_attitude eq_refl)
    as [Hthr Hskip].
  split; [exact Hthr|]. rewrite Hskip. vm_compute. reflexivity.
Defined.

(** ** Values that are not numbers *)

Lemma fadd_nan_l (y : float) : fadd S754_nan y = S754_nan.
Proof. reflexivity. Qed.

Lemma fadd_nan_r (x : float) : fadd x S754_nan = S754_nan.
Proof. destruct x; reflexivity. Qed.

Lemma fsub_nan_l (y : float) : fsub S754_nan y = S754_nan.
Proof. reflexivity. Qed.

Lemma fmul_nan_l (y : float) : fmul S754_nan y = S754_nan.
Proof. reflexivity. Qed.

Lemma fmul_nan_r (x : float) : fmul x S754_nan = S754_nan.
Proof. destruct x; reflexivity. Qed.

Lemma fge_nan_l (y : float) : fge S754_nan y = false.
Proof. destruct y; reflexivity. Qed.

Create Rewrite HintDb nan.
#[local] Hint Rewrite fadd_nan_l fadd_nan_r fsub_nan_l fmul_nan_l fmul_nan_r
  fge_nan_l : nan.

Lemma is_nan_eq (x : float) : is_nan x = true -> x = S754_nan.
Proof. destruct x; try discriminate; reflexivity. Qed.

(** A NaN anywhere in the covariance matrix makes the innovation variance
    a NaN, for every Jacobian: each entry is multiplied into its row of
    [PH], and each row of [PH] into the variance. *)
Lemma innov_var_nan (P : Matrix4) (H_MAG : arr4 float) (R_MAG : float)
      (i j : nat) :
  i < 4 -> j < 4 -> is_nan (mget P i j) = true ->
  snd (innov_var_loop P H_MAG R_MAG) = S754_nan.
Proof.
  intros Hi Hj. destruct P as [[] [] [] []], H_MAG as [h0 h1 h2 h3].
  destruct i as [|[|[|[|i]]]]; [| | | |lia];
    (destruct j as [|[|[|[|j]]]]; [| | | |lia]);
    cbn [mget get4 a0 a1 a2 a3]; intros Hnan; apply is_nan_eq in Hnan;
    subst; unfold innov_var_loop;
    cbv beta iota zeta delta
      [for_ fold_left seq mget get4 set4 a0 a1 a2 a3 snd];
    autorewrite with nan; reflexivity.
Qed.

(** The test of line 223 fails on a NaN as it does on a negative
    contribution of the covariance. *)
Lemma finish_unfit (L : locals) (index : nat) (rest : list nat) (s : loop_state) :
  index < 3 ->
  fge (mag_innov_var L index (ls_ekf s)) (R_MAG L) = false ->
  finish (fuse_axes L (index :: rest) s)
  = (set_cov_mat (ls_ekf s) prior_cov, [ECL_ERR_covariance_reset]).
Proof.
  intros Hi Hge. cbn [fuse_axes]. rewrite (fuse_axis_eq L index s Hi). cbv zeta.
  rewrite Hge. reflexivity.
Qed.

Section NotANumber.

Context {E : Extern}.

(** X7.  A NaN in any entry of the covariance matrix ends the next call
    that gets to the loop at the X axis: the innovation variance is a NaN,
    the test of line 223 fails, the covariance becomes the prior
    diag(0.25, 0.25, 0.25, 1.0), the error line is printed, and the
    states and the time stamp are those the call found. *)
Theorem X7_nan_covariance_is_reset (ekf : Ekf) (i j : nat) :
  fuses ekf = true ->
  i < 4 -> j < 4 ->
  is_nan (mget (_mag_cov_mat ekf) i j) = true ->
  fuseMagCal ekf
  = (set_cov_mat (after_gates ekf) prior_cov, [ECL_ERR_covariance_reset])
  /\ _mag_cal_states (fst (fuseMagCal ekf)) = _mag_cal_states ekf
  /\ _mag_bias_ekf_time_us (fst (fuseMagCal ekf)) = _mag_bias_ekf_time_us ekf.
Proof.
  intros Hfuses Hi Hj Hnan.
  assert (Hcall : fuseMagCal ekf
                  = (set_cov_mat (after_gates ekf) prior_cov,
                     [ECL_ERR_covariance_reset])).
  { rewrite (fuseMagCal_fuses ekf Hfuses).
    rewrite finish_unfit; [| lia |].
    - cbn [enter_loop ls_ekf]. unfold loop_entry, add_process_noise.
      destruct (after_gates ekf); reflexivity.
    - unfold mag_innov_var.
      rewrite (innov_var_nan _ _ _ i j Hi Hj); [apply fge_nan_l|].
      cbn [enter_loop ls_ekf]. unfold loop_entry, add_process_noise.
      cbn [set_cov_mat _mag_cov_mat].
      assert (Hcov : _mag_cov_mat (after_gates ekf) = _mag_cov_mat ekf)
        by (rewrite after_gates_eq; reflexivity).
      rewrite Hcov.
      assert (Hij : i < 3 \/ j < 3 \/ (i = 3 /\ j = 3)) by lia.
      destruct Hij as [Hlt|[Hlt|[-> ->]]].
      + rewrite mset_3_3_other; [exact Hnan | left; exact Hlt].
      + rewrite mset_3_3_other; [exact Hnan | right; exact Hlt].
      + apply is_nan_eq in Hnan. rewrite Hnan.
        destruct (_mag_cov_mat ekf) as [[] [] [] []]. reflexivity. }
  rewrite Hcall. cbn [fst]. rewrite after_gates_eq. repeat split.
Qed.

End NotANumber.

Lemma X7_nan_covariance_witness :
  @fuseMagCal ref_extern ekf_nan_cov
  = (set_cov_mat (@after_gates ref_extern ekf_nan_cov) prior_cov,
     [ECL_ERR_covariance_reset])
  /\ _mag_cal_states (fst (@fuseMagCal ref_extern ekf_nan_cov))
     = _mag_cal_states ekf_nan_cov
  /\ _mag_bias_ekf_time_us (fst (@fuseMagCal ref_extern ekf_nan_cov))
     = _mag_bias_ekf_time_us ekf_nan_cov.
Proof.
  apply (@X7_nan_covariance_is_reset ref_extern ekf_nan_cov 1 2);
    [vm_compute; reflexivity | lia | lia | vm_compute; reflexivity].
Defined.

(** ** What every call keeps *)

Lemma prior_cov_ok : cov_ok prior_cov.
Proof.
  split.
  - intros i j. each_index i; each_index j; reflexivity.
  - intros k. each_index k; vm_compute; reflexivity.
Qed.

Lemma correct_covariance_ok (P : Matrix4) (K H : arr4 float) :
  cov_ok (correct_covariance P K H).
Proof.
  split.
  - intros i j. apply correct_covariance_sym.
  - intros k. unfold correct_covariance. apply force_positive_diag.
Qed.

Lemma correct_states_ok (x : magCalStates) (K : arr4 float) (innov : float) :
  states_ok (correct_states x K innov).
Proof.
  destruct x as [[b0 b1 b2] yaw]. unfold correct_states, states_ok, within_limits.
  cbn [mag_bias yaw_offset get3 set3 e0 e1 e2].
  split.
  - intros [|[|[|i]]]; cbn [get3 e0 e1 e2];
      (split; [apply constrain_not_below | apply constrain_not_above]);
      exact bias_limits.
  - split; [apply constrain_not_below | apply constrain_not_above];
      exact radians_180_limits.
Qed.

(** A state that is a NaN is a NaN after the correction, whatever the gain
    and the innovation. *)
Lemma correct_states_nan (x : magCalStates) (K : arr4 float) (innov : float)
      (k : nat) :
  is_nan (cal_state x k) = true ->
  is_nan (cal_state (correct_states x K innov) k) = true.
Proof.
  destruct x as [[b0 b1 b2] yaw]. unfold correct_states.
  destruct k as [|[|[|k]]];
    cbn [cal_state mag_bias yaw_offset get3 set3 e0 e1 e2];
    intros Hnan; apply is_nan_eq in Hnan; subst;
    rewrite fsub_nan_l;
    first [ apply (constrain_nan S754_nan _ _ bias_limits)
          | apply (constrain_nan S754_nan _ _ radians_180_limits) ].
Qed.

Lemma limited_innovation_within (L : locals) (index : nat) (ekf : Ekf) :
  within_limits (limited_innovation L index ekf) (fneg f_0_5) f_0_5.
Proof.
  unfold limited_innovation.
  split; [apply constrain_not_below | apply constrain_not_above];
    exact bias_limits.
Qed.

(** One axis fused without fault: the covariance and the states it leaves,
    and the element of [innovation] it writes. *)
Lemma fuse_axis_continue (L : locals) (index : nat) (s s' : loop_state) :
  index < 3 ->
  fuse_axis L index s = Continue s' ->
  cov_ok (_mag_cov_mat (ls_ekf s'))
  /\ states_ok (_mag_cal_states (ls_ekf s'))
  /\ ls_innovation s'
     = set3 (ls_innovation s) index (limited_innovation L index (ls_ekf s)).
Proof.
  intros Hi H. rewrite (fuse_axis_eq L index s Hi) in H. cbv zeta in H.
  destruct (fge (mag_innov_var L index (ls_ekf s)) (R_MAG L)); [|discriminate].
  injection H as <-.
  cbn [ls_ekf ls_innovation set_cal_states set_cov_mat _mag_cov_mat
       _mag_cal_states].
  split; [apply correct_covariance_ok|].
  split; [apply correct_states_ok | reflexivity].
Qed.

Lemma fuse_axis_return (L : locals) (index : nat) (s : loop_state) (ekf' : Ekf) :
  fuse_axis L index s = Return ekf' ->
  ekf' = set_cov_mat (ls_ekf s) prior_cov.
Proof.
  unfold fuse_axis. destruct (innov_var_loop _ _ _) as [PH v].
  destruct (fge v (R_MAG L)); [discriminate|].
  intros H. injection H as <-. reflexivity.
Qed.

Lemma fuse_axis_nan_state (L : locals) (index : nat) (s : loop_state) (k : nat) :
  is_nan (cal_state (_mag_cal_states (ls_ekf s)) k) = true ->
  match fuse_axis L index s with
  | Continue s' => is_nan (cal_state (_mag_cal_states (ls_ekf s')) k) = true
  | Return ekf' => is_nan (cal_state (_mag_cal_states ekf') k) = true
  end.
Proof.
  intros Hnan. unfold fuse_axis. destruct (innov_var_loop _ _ _) as [PH v].
  destruct (fge v (R_MAG L)).
  - cbn [ls_ekf set_cal_states _mag_cal_states].
    apply correct_states_nan. exact Hnan.
  - destruct (ls_ekf s). exact Hnan.
Qed.

Lemma fuse_axes_nan_state (L : locals) (axes : list nat) (s : loop_state)
      (k : nat) :
  is_nan (cal_state (_mag_cal_states (ls_ekf s)) k) = true ->
  is_nan (cal_state (_mag_cal_states (fst (finish (fuse_axes L axes s)))) k)
  = true.
Proof.
  revert s. induction axes as [|index rest IH]; intros s Hnan; cbn [fuse_axes].
  - cbn [finish fst]. destruct (ls_ekf s). exact Hnan.
  - pose proof (fuse_axis_nan_state L index s k Hnan) as Haxis.
    destruct (fuse_axis L index s) as [s1|ekf1].
    + apply IH. exact Haxis.
    + exact Haxis.
Qed.

(** The three axes in turn: what the loop leaves when it runs to its end,
    and when it is left at a fault. *)
Lemma fuse_axes_outcome (L : locals) (s : loop_state) :
  match fuse_axes L [0; 1; 2] s with
  | Continue s' =>
    cov_ok (_mag_cov_mat (ls_ekf s'))
    /\ states_ok (_mag_cal_states (ls_ekf s'))
    /\ forall i : nat,
         within_limits (get3 (ls_innovation s') i) (fneg f_0_5) f_0_5
  | Return ekf' =>
    _mag_cov_mat ekf' = prior_cov
    /\ (_mag_cal_states ekf' = _mag_cal_states (ls_ekf s)
        \/ states_ok (_mag_cal_states ekf'))
  end.
Proof.
  cbn [fuse_axes].
  destruct (fuse_axis L 0 s) as [s0|ekf0] eqn:H0.
  2:{ apply fuse_axis_return in H0. subst. split; [reflexivity|].
      left. destruct (ls_ekf s); reflexivity. }
  destruct (fuse_axis_continue L 0 s s0 ltac:(lia) H0) as (_ & Hx0 & Hi0).
  destruct (fuse_axis L 1 s0) as [s1|ekf1] eqn:H1.
  2:{ apply fuse_axis_return in H1. subst. split; [reflexivity|].
      right. destruct (ls_ekf s0); exact Hx0. }
  destruct (fuse_axis_continue L 1 s0 s1 ltac:(lia) H1) as (_ & Hx1 & Hi1).
  destruct (fuse_axis L 2 s1) as [s2|ekf2] eqn:H2.
  2:{ apply fuse_axis_return in H2. subst. split; [reflexivity|].
      right. destruct (ls_ekf s1); exact Hx1. }
  destruct (fuse_axis_continue L 2 s1 s2 ltac:(lia) H2) as (HP & Hx2 & Hi2).
  split; [exact HP|]. split; [exact Hx2|].
  intros i. rewrite Hi2, Hi1, Hi0. destruct (ls_innovation s) as [i0 i1 i2].
  destruct i as [|[|[|i]]]; cbn [get3 set3 e0 e1 e2];
    apply limited_innovation_within.
Qed.

(** One axis fused without fault: the states and the element of
    [innovation] it writes, and the sample it leaves alone. *)
Lemma fuse_axis_continue_eq (L : locals) (index : nat) (s s' : loop_state) :
  index < 3 ->
  fuse_axis L index s = Continue s' ->
  _mag_cal_states (ls_ekf s')
  = correct_states (_mag_cal_states (ls_ekf s)) (Kfusion_of L index (ls_ekf s))
                   (limited_innovation L index (ls_ekf s))
  /\ ls_innovation s'
     = set3 (ls_innovation s) index (limited_innovation L index (ls_ekf s))
  /\ _mag_sample_delayed (ls_ekf s') = _mag_sample_delayed (ls_ekf s).
Proof.
  intros Hi H. rewrite (fuse_axis_eq L index s Hi) in H. cbv zeta in H.
  destruct (fge (mag_innov_var L index (ls_ekf s)) (R_MAG L)); [|discriminate].
  injection H as <-. repeat split.
Qed.

(** Each corrected state is not beyond its limit, and lies between the
    limits when it is a number. *)
Lemma correct_states_limited (x : magCalStates) (K : arr4 float) (innov : float)
      (k : nat) :
  let v := cal_state (correct_states x K innov) k in
  within_limits v (fneg (state_limit k)) (state_limit k)
  /\ (is_nan v = false ->
      fle (fneg (state_limit k)) v = true /\ fle v (state_limit k) = true).
Proof.
  destruct x as [[b0 b1 b2] yaw]. unfold correct_states, within_limits.
  destruct k as [|[|[|k]]];
    cbn [cal_state state_limit mag_bias yaw_offset get3 set3 e0 e1 e2];
    (split;
     [ split; [apply constrain_not_below | apply constrain_not_above];
       first [exact bias_limits | exact radians_180_limits]
     | intros Hnan;
       first [ apply (constrain_within _ _ _ bias_limits);
               rewrite <- Hnan; symmetry; apply (constrain_nan _ _ _ bias_limits)
             | apply (constrain_within _ _ _ radians_180_limits);
               rewrite <- Hnan; symmetry;
               apply (constrain_nan _ _ _ radians_180_limits) ] ]).
Qed.

Lemma limited_innovation_limited (L : locals) (index : nat) (ekf : Ekf) :
  let v := limited_innovation L index ekf in
  within_limits v (fneg f_0_5) f_0_5
  /\ (is_nan v = false -> fle (fneg f_0_5) v = true /\ fle v f_0_5 = true).
Proof.
  cbv zeta. split; [apply limited_innovation_within|].
  unfold limited_innovation. intros Hnan.
  apply (constrain_within _ _ _ bias_limits).
  rewrite <- Hnan. symmetry. apply (constrain_nan _ _ _ bias_limits).
Qed.

(** The loop run to its end: the states are those the Z axis corrected, and
    the three elements of [innovation] are the innovations of the three
    axes, each taken from the prediction in [L] and the sample, and
    limited. *)
Lemma fuse_axes_complete (L : locals) (s s' : loop_state) :
  fuse_axes L [0; 1; 2] s = Continue s' ->
  (exists (x : magCalStates) (K : arr4 float) (innov : float),
      _mag_cal_states (ls_ekf s') = correct_states x K innov)
  /\ ls_innovation s'
     = mk3 (limited_innovation L 0 (ls_ekf s))
           (limited_innovation L 1 (ls_ekf s))
           (limited_innovation L 2 (ls_ekf s)).
Proof.
  cbn [fuse_axes].
  destruct (fuse_axis L 0 s) as [s0|] eqn:H0; [|discriminate].
  destruct (fuse_axis L 1 s0) as [s1|] eqn:H1; [|discriminate].
  destruct (fuse_axis L 2 s1) as [s2|] eqn:H2; [|discriminate].
  intros H. injection H as <-.
  destruct (fuse_axis_continue_eq L 0 s s0 ltac:(lia) H0) as (_ & Hi0 & Hz0).
  destruct (fuse_axis_continue_eq L 1 s0 s1 ltac:(lia) H1) as (_ & Hi1 & Hz1).
  destruct (fuse_axis_continue_eq L 2 s1 s2 ltac:(lia) H2) as (Hx2 & Hi2 & _).
  split; [do 3 eexists; exact Hx2|].
  rewrite Hi2, Hi1, Hi0. unfold limited_innovation, innovation_of.
  rewrite Hz1, Hz0. destruct (ls_innovation s) as [i0 i1 i2]. reflexivity.
Qed.

Section Invariants.

Context {E : Extern}.

(** X8.  A calibration state that is a NaN stays a NaN through every call
    that does not reset the filter: the correction subtracts from it, the
    limits let a NaN pass, and the fault path leaves the states alone.
    Only the reset of lines 96-107 clears it. *)
Theorem X8_nan_state_persists (ekf : Ekf) (k : nat) :
  is_nan (cal_state (_mag_cal_states ekf) k) = true ->
  let x' := _mag_cal_states (fst (fuseMagCal ekf)) in
  if resets ekf then forall i : nat, cal_state x' i = f_0
  else is_nan (cal_state x' k) = true.
Proof.
  intros Hnan. cbv zeta. unfold resets. rewrite fuseMagCal_cases.
  destruct (skips ekf); cbn [negb andb].
  - cbn [fst]. destruct (dt_valid ekf); [|exact Hnan].
    rewrite (update_active_eq ekf). exact Hnan.
  - destruct (stale (after_gates ekf)).
    + intros i. cbn [fst]. destruct (after_gates ekf).
      destruct i as [|[|[|i]]]; reflexivity.
    + apply fuse_axes_nan_state. cbn [enter_loop ls_ekf].
      unfold loop_entry. rewrite after_gates_eq. exact Hnan.
Qed.

(** X9.  Every call that gets past the gates leaves a covariance matrix
    that holds the same value in [P[i][j]] and [P[j][i]] and has no
    diagonal entry below 1e-12, whatever it found: the reset and the fault
    leave the prior, and a completed loop leaves the matrix of the Z axis
    after lines 284-294.  A call that returns at a gate leaves the matrix
    as it is. *)
Theorem X9_covariance_after_a_call (ekf : Ekf) :
  let P' := _mag_cov_mat (fst (fuseMagCal ekf)) in
  if skips ekf then P' = _mag_cov_mat ekf else cov_ok P'.
Proof.
  cbv zeta. rewrite fuseMagCal_cases.
  destruct (skips ekf).
  - cbn [fst]. destruct (dt_valid ekf); [|reflexivity].
    rewrite (update_active_eq ekf). reflexivity.
  - destruct (stale (after_gates ekf)).
    + cbn [fst]. destruct (after_gates ekf). exact prior_cov_ok.
    + pose proof (fuse_axes_outcome (loop_locals ekf)
                                    (enter_loop (loop_entry ekf))) as Hout.
      destruct (fuse_axes (loop_locals ekf) [0; 1; 2]
                          (enter_loop (loop_entry ekf))) as [s'|ekf'];
        cbn [finish fst].
      * destruct Hout as [HP _]. destruct (ls_ekf s'). exact HP.
      * destruct Hout as [-> _]. exact prior_cov_ok.
Qed.

(** X10.  The limits on the states hold from call to call: when no state
    is beyond its limit before a call (the biases at +-0.5, the yaw offset
    at +-180 degrees), none is after it, on every path. *)
Theorem X10_states_stay_within_limits (ekf : Ekf) :
  states_ok (_mag_cal_states ekf) ->
  states_ok (_mag_cal_states (fst (fuseMagCal ekf))).
Proof.
  intros Hok. rewrite fuseMagCal_cases.
  destruct (skips ekf).
  - cbn [fst]. destruct (dt_valid ekf); [|exact Hok].
    rewrite (update_active_eq ekf). exact Hok.
  - destruct (stale (after_gates ekf)).
    + cbn [fst]. destruct (after_gates ekf).
      cbn [reset_filter set_cov_mat set_cal_states set_time_us _mag_cal_states].
      split.
      * intros [|[|[|i]]]; split; vm_compute; reflexivity.
      * split; vm_compute; reflexivity.
    + pose proof (fuse_axes_outcome (loop_locals ekf)
                                    (enter_loop (loop_entry ekf))) as Hout.
      destruct (fuse_axes (loop_locals ekf) [0; 1; 2]
                          (enter_loop (loop_entry ekf))) as [s'|ekf'];
        cbn [finish fst].
      * destruct Hout as (_ & Hx & _). destruct (ls_ekf s'). exact Hx.
      * destruct Hout as [_ [->|Hx]]; [|exact Hx].
        cbn [enter_loop ls_ekf]. unfold loop_entry. rewrite after_gates_eq.
        exact Hok.
Qed.

(** X11.  When a call prints the two debug lines, the first line shows the
    calibration states the call leaves, and the second line shows, for each
    axis, the innovation of line 205, the prediction made before the loop
    minus the magnetometer sample, limited to +-0.5 at line 298.  None of
    the printed values is beyond its limit (0.5 for an innovation and a
    bias, 180 degrees for the yaw offset), and each one that is a number
    lies between its limits; a printed value can be a NaN.  The time stamp
    is then the time of the sample. *)
Theorem X11_debug_lines (ekf : Ekf) (b0 b1 b2 y i0 i1 i2 : float) :
  snd (fuseMagCal ekf) = [printf_states b0 b1 b2 y; printf_innov i0 i1 i2] ->
  let after := fst (fuseMagCal ekf) in
  let L := loop_locals ekf in
  let limited (k : nat) :=
    constrain (get3 (mag_obs_predicted L) k
               - get3 (mag (_mag_sample_delayed ekf)) k)%f32
              (fneg f_0_5) f_0_5 in
  _mag_cal_states after = {| mag_bias := mk3 b0 b1 b2; yaw_offset := y |}
  /\ (i0 = limited 0 /\ i1 = limited 1 /\ i2 = limited 2)
  /\ (forall i : float, In i [i0; i1; i2] ->
        within_limits i (fneg f_0_5) f_0_5
        /\ (is_nan i = false ->
            fle (fneg f_0_5) i = true /\ fle i f_0_5 = true))
  /\ (forall k : nat,
        let v := cal_state (_mag_cal_states after) k in
        within_limits v (fneg (state_limit k)) (state_limit k)
        /\ (is_nan v = false ->
            fle (fneg (state_limit k)) v = true
            /\ fle v (state_limit k) = true))
  /\ _mag_bias_ekf_time_us after = time_us (_imu_sample_delayed ekf).
Proof.
  cbv zeta. rewrite fuseMagCal_cases.
  destruct (skips ekf); [discriminate|].
  destruct (stale (after_gates ekf)); [discriminate|].
  pose proof (fuse_axes_complete (loop_locals ekf)
                                 (enter_loop (loop_entry ekf))) as Hdone.
  pose proof (fuse_axes_frame (loop_locals ekf) [0; 1; 2]
                              (enter_loop (loop_entry ekf))) as Hframe.
  destruct (fuse_axes (loop_locals ekf) [0; 1; 2]
                      (enter_loop (loop_entry ekf))) as [s'|ekf'];
    cbn [finish fst snd]; [|discriminate].
  destruct (Hdone s' eq_refl) as ((x & K & innov & Hx) & Hinnov).
  unfold replay_debug. rewrite Hinnov. cbn [get3 e0 e1 e2].
  assert (Hsample : _mag_sample_delayed (loop_entry ekf)
                    = _mag_sample_delayed ekf).
  { unfold loop_entry. rewrite after_gates_eq. reflexivity. }
  intros Hprint. injection Hprint as <- <- <- <- <- <- <-.
  split; [destruct (ls_ekf s') as [? ? ? ? ? ? ? ? ? ? [[? ? ?] ?]]; reflexivity|].
  split.
  { unfold limited_innovation, innovation_of. rewrite Hsample. repeat split. }
  split.
  { intros i [<-|[<-|[<-|[]]]]; apply limited_innovation_limited. }
  split.
  { intros k.
    assert (Hstates : _mag_cal_states
                        (set_time_us (ls_ekf s')
                           (time_us (_imu_sample_delayed (ls_ekf s'))))
                      = correct_states x K innov)
      by (rewrite <- Hx; destruct (ls_ekf s'); reflexivity).
    rewrite Hstates. apply correct_states_limited. }
  rewrite Hframe. cbn [enter_loop ls_ekf]. unfold loop_entry.
  rewrite after_gates_eq. reflexivity.
Qed.

End Invariants.

Lemma X8_nan_bias_witness :
  is_nan (get3 (mag_bias (_mag_cal_states
                            (fst (@fuseMagCal ref_extern ekf_nan_bias)))) 0)
  = true.
Proof.
  exact (@X8_nan_state_persists ref_extern ekf_nan_bias 0 eq_refl).
Defined.

Lemma X10_turning_witness :
  states_ok (_mag_cal_states (fst (@fuseMagCal ref_extern ekf_turning))).
Proof.
  apply (@X10_states_stay_within_limits ref_extern ekf_turning).
  split.
  - intros [|[|[|i]]]; split; vm_compute; reflexivity.
  - split; vm_compute; reflexivity.
Defined.

(** The turning vehicle prints states and innovations that are numbers
    inside their limits; with a NaN in the magnetometer reading the call
    prints four NaN states and a NaN innovation. *)
Lemma X11_turning_witness :
  (_mag_cal_states (fst (@fuseMagCal ref_extern ekf_turning))
   = _mag_cal_states (ls_ekf turning_done)
   /\ get3 (ls_innovation turning_done) 0
      = constrain (get3 (mag_obs_predicted (@loop_locals ref_extern ekf_turning)) 0
                   - get3 (mag (_mag_sample_delayed ekf_turning)) 0)%f32
                  (fneg f_0_5) f_0_5
   /\ fle (fneg f_0_5) (get3 (ls_innovation turning_done) 0) = true
   /\ fle (get3 (ls_innovation turning_done) 0) f_0_5 = true
   /\ _mag_bias_ekf_time_us (fst (@fuseMagCal ref_extern ekf_turning))
      = 2000000%Z)
  /\ (_mag_cal_states (fst (@fuseMagCal ref_extern ekf_nan_reading))
      = {| mag_bias := mk3 S754_nan S754_nan S754_nan; yaw_offset := S754_nan |}
      /\ S754_nan
         = constrain
             (get3 (mag_obs_predicted (@loop_locals ref_extern ekf_nan_reading)) 0
              - get3 (mag (_mag_sample_delayed ekf_nan_reading)) 0)%f32
             (fneg f_0_5) f_0_5).
Proof.
  split.
  - destruct (@X11_debug_lines ref_extern ekf_turning
                (get3 (mag_bias (_mag_cal_states (ls_ekf turning_done))) 0)
                (get3 (mag_bias (_mag_cal_states (ls_ekf turning_done))) 1)
                (get3 (mag_bias (_mag_cal_states (ls_ekf turning_done))) 2)
                (yaw_offset (_mag_cal_states (ls_ekf turning_done)))
                (get3 (ls_innovation turning_done) 0)
                (get3 (ls_innovation turning_done) 1)
                (get3 (ls_innovation turning_done) 2))
      as (Hx & (Hi0 & _) & Hin & _ & Ht).
    + vm_compute. reflexivity.
    + split; [exact Hx|]. split; [exact Hi0|].
      destruct (Hin _ (or_introl eq_refl)) as [_ Hinside].
      destruct (Hinside eq_refl) as [Hlo Hhi].
      split; [exact Hlo|]. split; [exact Hhi | exact Ht].
  - destruct (@X11_debug_lines ref_extern ekf_nan_reading
                S754_nan S754_nan S754_nan S754_nan
                S754_nan (S754_finite false 13421773 (-28))
                (S754_finite true 10737408 (-29)))
      as (Hx & (Hi0 & _) & _).
    + vm_compute. reflexivity.
    + split; [exact Hx | exact Hi0].
Defined.

(** ** The measurement noise variance and the test of line 223 *)

Lemma shr_1_nonneg (mrs : shr_record) :
  (0 <= shr_m mrs)%Z -> (0 <= shr_m (shr_1 mrs))%Z.
Proof.
  destruct mrs as [m r s]. cbn [shr_m]. intros Hm.
  destruct m as [|[p|p|]|p]; cbn [shr_1 shr_m]; lia.
Qed.

Lemma iter_shr_1_nonneg (p : positive) (mrs : shr_record) :
  (0 <= shr_m mrs)%Z -> (0 <= shr_m (iter_pos shr_1 p mrs))%Z.
Proof.
  revert mrs. induction p as [p IH|p IH|]; intros mrs Hm; cbn [iter_pos].
  - apply IH, IH, shr_1_nonneg, Hm.
  - apply IH, IH, Hm.
  - apply shr_1_nonneg, Hm.
Qed.

Lemma shr_fexp_nonneg (m e : Z) (l : location) :
  (0 <= m)%Z -> (0 <= shr_m (fst (shr_fexp prec emax m e l)))%Z.
Proof.
  intros Hm. unfold shr_fexp, shr.
  assert (H0 : (0 <= shr_m (shr_record_of_loc m l))%Z)
    by (destruct l as [|[]]; exact Hm).
  destruct (fexp prec emax (Zdigits2 m + e) - e)%Z; cbn [fst];
    [exact H0 | apply iter_shr_1_nonneg; exact H0 | exact H0].
Qed.

Lemma round_nearest_even_nonneg (m : Z) (l : location) :
  (0 <= m)%Z -> (0 <= round_nearest_even m l)%Z.
Proof.
  intros Hm. destruct l as [|[]]; cbn [round_nearest_even];
    try destruct (Z.even m); lia.
Qed.

(** Rounding a positive mantissa gives a zero, a finite value or an
    infinity of the sign asked for, never a NaN. *)
Lemma binary_round_aux_sign (s : bool) (m : positive) (e : Z) (l : location) :
  match binary_round_aux prec emax s (Z.pos m) e l with
  | S754_nan => False
  | S754_zero s' | S754_infinity s' | S754_finite s' _ _ => s' = s
  end.
Proof.
  unfold binary_round_aux.
  pose proof (shr_fexp_nonneg (Z.pos m) e l ltac:(lia)) as H1.
  destruct (shr_fexp prec emax (Z.pos m) e l) as [mrs' e']. cbn [fst] in H1.
  pose proof (shr_fexp_nonneg
                (round_nearest_even (shr_m mrs') (loc_of_shr_record mrs'))
                e' loc_Exact
                (round_nearest_even_nonneg _ _ H1)) as H2.
  destruct (shr_fexp prec emax _ e' loc_Exact) as [mrs'' e'']. cbn [fst] in H2.
  destruct (shr_m mrs'') as [|p|p]; [reflexivity| |lia].
  destruct (e'' <=? emax - prec)%Z; reflexivity.
Qed.

(** [fmaxf] against zero: a NaN and a value not above zero give zero. *)
Lemma fmaxf_zero (x : float) : fmaxf x f_0 = if fgt x f_0 then x else f_0.
Proof. unfold fmaxf. destruct x; reflexivity. Qed.

(** The square of the noise parameter limited from below by zero is never
    a NaN and never negative; a parameter that is negative or a NaN counts
    as zero. *)
Lemma noise_variance_sign (noise : float) :
  let R := (fmaxf noise f_0 * fmaxf noise f_0)%f32 in
  is_nan R = false /\ fge R f_0 = true
  /\ (fgt noise f_0 = false -> R = f_0).
Proof.
  cbv zeta. rewrite fmaxf_zero.
  destruct (fgt noise f_0) eqn:Hgt.
  - destruct noise as [s|s| |s m e]; try discriminate;
      destruct s; try discriminate.
    + repeat split; first [reflexivity | discriminate].
    + unfold fmul, SFmul. cbn [xorb].
      pose proof (binary_round_aux_sign false (m * m) (e + e) loc_Exact) as H.
      destruct (binary_round_aux prec emax false (Z.pos (m * m)) (e + e) loc_Exact)
        as [s'|s'| |s' m' e']; try contradiction; subst;
        repeat split; first [reflexivity | discriminate].
  - repeat split.
Qed.

(** Against a bound that is not a NaN, [>=] fails exactly on a smaller
    value and on a NaN. *)
Lemma fge_false (v R : float) :
  is_nan R = false ->
  fge v R = false <-> flt v R = true \/ is_nan v = true.
Proof.
  intros HR. unfold fge, flt, SFleb, SFltb.
  rewrite (SFcompare_antisym v R).
  destruct v as [s|s| |s m e]; cbn [is_nan].
  4:{ destruct (SFcompare_some (S754_finite s m e) R eq_refl HR) as [c ->].
      destruct c; cbn; split; intros H; try reflexivity; try discriminate;
        try (left; reflexivity); destruct H; discriminate. }
  1:{ destruct (SFcompare_some (S754_zero s) R eq_refl HR) as [c ->].
      destruct c; cbn; split; intros H; try reflexivity; try discriminate;
        try (left; reflexivity); destruct H; discriminate. }
  1:{ destruct (SFcompare_some (S754_infinity s) R eq_refl HR) as [c ->].
      destruct c; cbn; split; intros H; try reflexivity; try discriminate;
        try (left; reflexivity); destruct H; discriminate. }
  split; [intros _; right; reflexivity | intros _; reflexivity].
Qed.

Section Gates.

Context {E : Extern}.

(** X12.  A call gets past the gates only on a sample that allows the
    calibration: the time step is valid, the main filter does not use the
    magnetometer, the tilt is ok, the absolute yaw rate is not below 5
    degrees per second, and the yaw is not within 10 degrees of the
    reference yaw; the filter is active after such a call. *)
Theorem X12_fusion_needs_rotation (ekf : Ekf) :
  skips ekf = false ->
  dt_valid ekf = true
  /\ _mag_use_inhibit ekf = true
  /\ tilt_ok ekf = true
  /\ flt (fabsf (yaw_rate ekf)) (radians f_5) = false
  /\ flt (fabsf (yaw_delta ekf)) (radians f_10) = false
  /\ _mag_bias_ekf_active (fst (fuseMagCal ekf)) = true.
Proof.
  intros Hskip. destruct (skips_false ekf Hskip) as (Hdt & Hsup & Hthr).
  unfold suppressed in Hsup. rewrite update_active_inhibit in Hsup.
  destruct (_mag_use_inhibit ekf); [|discriminate].
  destruct (_mag_bias_ekf_active (update_active ekf)) eqn:Hact; [|discriminate].
  split; [exact Hdt|]. split; [reflexivity|].
  assert (Htested : tilt_ok ekf = true
                    /\ flt (fabsf (yaw_rate ekf)) (radians f_5) = false).
  { revert Hact. unfold update_active.
    pose proof (above_10_not_below_5 (fabsf (yaw_rate ekf))) as Hband.
    destruct (_mag_bias_ekf_active ekf) eqn:Hwas,
             (fgt (fabsf (yaw_rate ekf)) (radians f_10)),
             (flt (fabsf (yaw_rate ekf)) (radians f_5)),
             (tilt_ok ekf);
      cbn [negb andb orb set_active _mag_bias_ekf_active];
      try rewrite Hwas; intros Hact; try discriminate;
      try (split; reflexivity);
      specialize (Hband eq_refl); discriminate. }
  destruct Htested as [Htilt Hrate].
  split; [exact Htilt|]. split; [exact Hrate|].
  split.
  - rewrite (update_active_eq ekf) in Hthr. exact Hthr.
  - rewrite (fuseMagCal_active ekf Hdt). exact Hact.
Qed.

(** X13.  The measurement noise variance [R_MAG] of a call is the square of
    the noise parameter limited from below by zero: it is never a NaN and
    never negative, and it is [+0] when the parameter is negative, zero or
    a NaN.  So the test of line 223 sends an axis to the fault branch
    exactly when its innovation variance is below [R_MAG] or is a NaN. *)
Theorem X13_noise_variance_and_fault_test (ekf : Ekf) (index : nat) (a : Ekf) :
  let L := loop_locals ekf in
  let noise := mag_noise (_params ekf) in
  R_MAG L = (fmaxf noise f_0 * fmaxf noise f_0)%f32
  /\ is_nan (R_MAG L) = false
  /\ fge (R_MAG L) f_0 = true
  /\ (if fgt noise f_0 then R_MAG L = (noise * noise)%f32 else R_MAG L = f_0)
  /\ (fge (mag_innov_var L index a) (R_MAG L) = false
      <-> flt (mag_innov_var L index a) (R_MAG L) = true
          \/ is_nan (mag_innov_var L index a) = true).
Proof.
  cbv zeta.
  assert (HR : R_MAG (loop_locals ekf)
               = (fmaxf (mag_noise (_params ekf)) f_0
                  * fmaxf (mag_noise (_params ekf)) f_0)%f32).
  { unfold loop_locals, compute_locals, loop_entry. cbn [R_MAG].
    rewrite after_gates_eq. reflexivity. }
  destruct (noise_variance_sign (mag_noise (_params ekf)))
    as (Hnan & Hpos & Hzero). cbv zeta in *.
  rewrite HR. split; [reflexivity|]. split; [exact Hnan|].
  split; [exact Hpos|]. split.
  - destruct (fgt (mag_noise (_params ekf)) f_0) eqn:Hgt.
    + rewrite fmaxf_zero, Hgt. reflexivity.
    + apply Hzero. reflexivity.
  - apply fge_false. exact Hnan.
Qed.

End Gates.

Lemma X12_turning_witness :
  tilt_ok (E := ref_extern) ekf_turning = true
  /\ flt (fabsf (yaw_rate ekf_turning)) (radians f_5) = false.
Proof.
  destruct (@X12_fusion_needs_rotation ref_extern ekf_turning)
    as (_ & _ & Htilt & Hrate & _).
  - vm_compute. reflexivity.
  - split; [exact Htilt | exact Hrate].
Defined.

(** ** The covariance and the measurement *)

(** The loop on two objects with the same covariance, under Jacobians and
    noise variances that agree: both runs end the same way, and leave the
    same covariance. *)
Lemma fuse_axes_same_cov (L L' : locals) (axes : list nat) (s s' : loop_state) :
  (forall index, H_MAG_of L index = H_MAG_of L' index) ->
  R_MAG L = R_MAG L' ->
  _mag_cov_mat (ls_ekf s) = _mag_cov_mat (ls_ekf s') ->
  match fuse_axes L axes s, fuse_axes L' axes s' with
  | Continue t, Continue t' =>
    _mag_cov_mat (ls_ekf t) = _mag_cov_mat (ls_ekf t')
  | Return e, Return e' => _mag_cov_mat e = _mag_cov_mat e'
  | _, _ => False
  end.
Proof.
  intros HH HR. revert s s'.
  induction axes as [|index rest IH]; intros s s' HP; cbn [fuse_axes].
  - exact HP.
  - unfold fuse_axis. rewrite <- (HH index), <- HR, <- HP.
    destruct (innov_var_loop _ _ _) as [PH v].
    destruct (fge v (R_MAG L)).
    + apply IH. reflexivity.
    + reflexivity.
Qed.

Section Measurement.

Context {E : Extern}.

Lemma update_active_with_measurement (ekf : Ekf) (z : magSample) (b : Vector3f) :
  update_active (with_measurement ekf z b)
  = with_measurement (update_active ekf) z b.
Proof.
  unfold update_active.
  change (yaw_rate (with_measurement ekf z b)) with (yaw_rate ekf).
  change (tilt_ok (with_measurement ekf z b)) with (tilt_ok ekf).
  change (_mag_bias_ekf_active (with_measurement ekf z b))
    with (_mag_bias_ekf_active ekf).
  destruct (negb (_mag_bias_ekf_active ekf)
            && fgt (fabsf (yaw_rate ekf)) (radians f_10) && tilt_ok ekf);
    [reflexivity|].
  destruct (_mag_bias_ekf_active ekf
            && (flt (fabsf (yaw_rate ekf)) (radians f_5) || negb (tilt_ok ekf)));
    reflexivity.
Qed.

Lemma after_gates_with_measurement (ekf : Ekf) (z : magSample) (b : Vector3f) :
  after_gates (with_measurement ekf z b)
  = with_measurement (after_gates ekf) z b.
Proof.
  unfold after_gates. cbv zeta. rewrite update_active_with_measurement.
  reflexivity.
Qed.

Lemma skips_with_measurement (ekf : Ekf) (z : magSample) (b : Vector3f) :
  skips (with_measurement ekf z b) = skips ekf.
Proof.
  unfold skips. rewrite update_active_with_measurement. reflexivity.
Qed.

Lemma loop_entry_with_measurement (ekf : Ekf) (z : magSample) (b : Vector3f) :
  loop_entry (with_measurement ekf z b) = with_measurement (loop_entry ekf) z b.
Proof.
  unfold loop_entry. rewrite after_gates_with_measurement. reflexivity.
Qed.

(** The Jacobians and the noise variance read neither the sample nor the
    biases. *)
Lemma H_MAG_with_measurement
      (ekf : Ekf) (z : magSample) (b : Vector3f) (index : nat) :
  H_MAG_of (compute_locals ekf) index
  = H_MAG_of (compute_locals (with_measurement ekf z b)) index.
Proof.
  unfold compute_locals.
  change (quat_relative (with_measurement ekf z b)) with (quat_relative ekf).
  change (yaw_offset (_mag_cal_states (with_measurement ekf z b)))
    with (yaw_offset (_mag_cal_states ekf)).
  generalize (quat_relative ekf), (cosf (yaw_offset (_mag_cal_states ekf))),
    (sinf (yaw_offset (_mag_cal_states ekf))), getGeoMagNED.
  intros q c s m.
  destruct index as [|[|[|index]]]; reflexivity.
Qed.

Lemma R_MAG_with_measurement (ekf : Ekf) (z : magSample) (b : Vector3f) :
  R_MAG (compute_locals ekf) = R_MAG (compute_locals (with_measurement ekf z b)).
Proof. reflexivity. Qed.

(** X14.  The covariance does not depend on what is measured: a call on
    another magnetometer sample and other bias estimates takes the same
    path, prints the same number of lines and leaves the same covariance
    matrix, time stamp, reference yaw and activity flag.  The measurement
    and the biases reach the states only. *)
Theorem X14_covariance_ignores_the_measurement
  (ekf : Ekf) (z : magSample) (b : Vector3f) :
  let ekf' := with_measurement ekf z b in
  let after := fst (fuseMagCal ekf) in
  let after' := fst (fuseMagCal ekf') in
  _mag_cov_mat after' = _mag_cov_mat after
  /\ _mag_bias_ekf_time_us after' = _mag_bias_ekf_time_us after
  /\ _mag_bias_ekf_yaw_last after' = _mag_bias_ekf_yaw_last after
  /\ _mag_bias_ekf_active after' = _mag_bias_ekf_active after
  /\ length (snd (fuseMagCal ekf')) = length (snd (fuseMagCal ekf)).
Proof.
  cbv zeta. rewrite !fuseMagCal_cases.
  rewrite skips_with_measurement, after_gates_with_measurement.
  change (dt_valid (with_measurement ekf z b)) with (dt_valid ekf).
  change (stale (with_measurement (after_gates ekf) z b))
    with (stale (after_gates ekf)).
  destruct (skips ekf).
  - cbn [fst snd]. destruct (dt_valid ekf); [|repeat split].
    rewrite update_active_with_measurement. repeat split.
  - destruct (stale (after_gates ekf)); [repeat split|].
    unfold loop_locals. rewrite loop_entry_with_measurement.
    generalize (loop_entry ekf). intros a.
    pose proof (fuse_axes_same_cov
                  (compute_locals a) (compute_locals (with_measurement a z b))
                  [0; 1; 2] (enter_loop a)
                  (enter_loop (with_measurement a z b))
                  (H_MAG_with_measurement a z b)
                  (R_MAG_with_measurement a z b) eq_refl) as Hsame.
    pose proof (fuse_axes_frame (compute_locals a) [0; 1; 2] (enter_loop a))
      as Hframe.
    pose proof (fuse_axes_frame (compute_locals (with_measurement a z b))
                                [0; 1; 2]
                                (enter_loop (with_measurement a z b)))
      as Hframe'.
    destruct (fuse_axes (compute_locals a) [0; 1; 2] (enter_loop a)) as [t|e],
             (fuse_axes (compute_locals (with_measurement a z b)) [0; 1; 2]
                        (enter_loop (with_measurement a z b))) as [t'|e'];
      try contradiction; cbn [finish fst snd];
      rewrite Hframe, Hframe';
      cbn [enter_loop ls_ekf set_time_us set_cal_states set_cov_mat
           with_measurement _mag_cov_mat _mag_bias_ekf_time_us
           _mag_bias_ekf_yaw_last _mag_bias_ekf_active _imu_sample_delayed];
      rewrite Hsame; repeat split.
Qed.

End Measurement.

(** ** The elapsed time and the process noise *)

(** Not a NaN and of positive sign: a zero, a positive number or plus
    infinity. *)
Lemma of_Z_sign (d : Z) :
  (0 <= d)%Z ->
  match of_Z d with
  | S754_nan => False
  | S754_zero s | S754_infinity s | S754_finite s _ _ => s = false
  end.
Proof.
  intros Hd. unfold of_Z, binary_normalize.
  destruct d as [|m|m]; [reflexivity| |lia].
  unfold binary_round.
  destruct (shl_align m 0 (fexp prec emax (Z.pos (digits2_pos m) + 0)))
    as [mz ez].
  apply binary_round_aux_sign.
Qed.

Lemma fmul_sign_finite (x : float) (m : positive) (e : Z) :
  match x with
  | S754_nan => False
  | S754_zero s | S754_infinity s | S754_finite s _ _ => s = false
  end ->
  match (S754_finite false m e * x)%f32, (x * S754_finite false m e)%f32 with
  | S754_nan, _ | _, S754_nan => False
  | (S754_zero s | S754_infinity s | S754_finite s _ _),
    (S754_zero s' | S754_infinity s' | S754_finite s' _ _) =>
    s = false /\ s' = false
  end.
Proof.
  destruct x as [s|s| |s mx ex]; intros Hx; try contradiction; subst;
    try (split; reflexivity).
  unfold fmul, SFmul. cbn [xorb].
  pose proof (binary_round_aux_sign false (m * mx) (e + ex) loc_Exact) as H1.
  pose proof (binary_round_aux_sign false (mx * m) (ex + e) loc_Exact) as H2.
  destruct (binary_round_aux prec emax false (Z.pos (m * mx)) (e + ex) loc_Exact),
           (binary_round_aux prec emax false (Z.pos (mx * m)) (ex + e) loc_Exact);
    try contradiction; split; assumption.
Qed.

Lemma fmul_sign_square (x : float) :
  match x with
  | S754_nan => False
  | S754_zero s | S754_infinity s | S754_finite s _ _ => s = false
  end ->
  is_nan (x * x)%f32 = false /\ fge (x * x)%f32 f_0 = true.
Proof.
  destruct x as [s|s| |s m e]; intros Hx; try contradiction; subst;
    try (split; reflexivity).
  unfold fmul, SFmul. cbn [xorb].
  pose proof (binary_round_aux_sign false (m * m) (e + e) loc_Exact) as H.
  destruct (binary_round_aux prec emax false (Z.pos (m * m)) (e + e) loc_Exact);
    try contradiction; subst; split; reflexivity.
Qed.

(** The product of lines 94 and 112-113 for a time difference [d] that is
    not negative and two positive constants. *)
Lemma elapsed_sign (d : Z) (c1 c2 : float) :
  (0 <= d)%Z ->
  (exists m e, c1 = S754_finite false m e) ->
  (exists m e, c2 = S754_finite false m e) ->
  let dt := (c1 * of_Z d)%f32 in
  let v := (dt * c2)%f32 in
  is_nan dt = false /\ flt dt f_0 = false
  /\ is_nan (v * v)%f32 = false /\ fge (v * v)%f32 f_0 = true.
Proof.
  intros Hd (m1 & e1 & ->) (m2 & e2 & ->). cbv zeta.
  pose proof (fmul_sign_finite (of_Z d) m1 e1 (of_Z_sign d Hd)) as Hdt.
  generalize dependent (of_Z d). intros x Hdt.
  generalize dependent (S754_finite false m1 e1 * x)%f32. intros dt Hdt.
  assert (Hdt' : match dt with
                 | S754_nan => False
                 | S754_zero s | S754_infinity s | S754_finite s _ _ => s = false
                 end).
  { destruct dt, (x * S754_finite false m1 e1)%f32;
      try contradiction; apply Hdt. }
  clear Hdt.
  pose proof (fmul_sign_finite dt m2 e2 Hdt') as Hv.
  generalize dependent (dt * S754_finite false m2 e2)%f32. intros v Hv.
  assert (Hv' : match v with
                | S754_nan => False
                | S754_zero s | S754_infinity s | S754_finite s _ _ => s = false
                end).
  { destruct (S754_finite false m2 e2 * dt)%f32, v;
      try contradiction; apply Hv. }
  destruct (fmul_sign_square v Hv') as [Hnan Hpos].
  split; [destruct dt; try contradiction; reflexivity|].
  split; [destruct dt; try contradiction; subst; reflexivity|].
  split; assumption.
Qed.

Lemma mget_mset_3_3 (P : Matrix4) (x : float) : mget (mset P 3 3 x) 3 3 = x.
Proof. destruct P as [[] [] [] []]. reflexivity. Qed.

Section Elapsed.

Context {E : Extern}.

(** X15.  Whatever the two time stamps are, also when the sample is older
    than the last fusion and the unsigned difference of line 94 wraps
    around, the elapsed time in seconds is not a NaN and not negative, and
    neither is the process noise variance of lines 112-113 that is added
    to the yaw offset variance. *)
Theorem X15_elapsed_time_and_process_noise (ekf : Ekf) :
  let dt := time_delta_sec ekf in
  let noise := yaw_process_noise_variance dt in
  is_nan dt = false /\ flt dt f_0 = false
  /\ is_nan noise = false /\ fge noise f_0 = true
  /\ mget (_mag_cov_mat (loop_entry ekf)) 3 3
     = (mget (_mag_cov_mat ekf) 3 3 + noise)%f32.
Proof.
  cbv zeta.
  assert (Hd : (0 <= (time_us (_imu_sample_delayed ekf)
                      - _mag_bias_ekf_time_us ekf) mod 2 ^ 64)%Z)
    by (apply Z.mod_pos_bound; reflexivity).
  assert (H6 : exists m e, f_1E_6 = S754_finite false m e)
    by (do 2 eexists; reflexivity).
  assert (H05 : exists m e, radians f_0_5 = S754_finite false m e)
    by (do 2 eexists; vm_compute; reflexivity).
  destruct (elapsed_sign _ _ _ Hd H6 H05) as (H1 & H2 & H3 & H4).
  split; [exact H1|]. split; [exact H2|]. split; [exact H3|].
  split; [exact H4|].
  unfold loop_entry, add_process_noise. cbn [set_cov_mat _mag_cov_mat].
  rewrite time_delta_sec_after_gates, mget_mset_3_3.
  rewrite after_gates_eq. reflexivity.
Qed.

End Elapsed.
